(** * AgentQueueManager: bounded-concurrency admission queue

    A shallow embedding of [src/server/agentQueueManager.ts] and the
    properties of it that the specification states.

    Modelling choices.
    - [maxConcurrent] is a JavaScript number; the specification speaks of
      integers, so it is an integer [Z] here (fractions, [NaN] and the
      infinities are left out).  [Map.size] and [Array.length] are natural
      numbers, compared with the capacity in [Z].
    - [runningAgents] is a [Map<string, RunningAgent>]: a [gmap string].
      [Map.set] on a present key overwrites and leaves the size unchanged,
      which is what [insert] does.
    - [queuedAgents] is an array used as a FIFO: [push] appends at the
      tail, [shift] removes the head.
    - [Date.now()] reads a clock that the host owns: the n-th read yields
      [clock n].
    - [console.log], [console.warn] and the invocation of the spawn
      callback are recorded, in order, in a trace of events.  The callback
      is the caller's code: it is a handle here, and a call of it is an
      event that returns normally and does not call the queue back from
      within.  (The object is consistent at that point, so a call made
      from the callback acts like one made right after.)
    - A method runs in the monad [Eff]: it threads the world (the object
      and the host) and ends with a completion, normal or abrupt.  The
      source has no [throw], but two property reads would raise a
      [TypeError] on [undefined]; they are modelled as such. *)

From stdpp Require Import gmap strings list fin_maps sorting.
From Stdlib Require Import ZArith Lia.

Open Scope Z_scope.

(** ** Data *)

Module AgentTask.
Record t := mk {
  id : string;
  type : string;
  prompt : string;
  enqueuedAt : Z;
}.
End AgentTask.

Module RunningAgent.
Record t := mk {
  id : string;
  type : string;
  startedAt : Z;
}.
End RunningAgent.

(** The function registered with [setSpawnCallback], by reference. *)
Record Callback := { cb_ref : nat }.

Record AgentQueueManager := {
  maxConcurrent : Z;
  runningAgents : gmap string RunningAgent.t;
  queuedAgents : list AgentTask.t;
  onSpawnCallback : option Callback;
}.

(** The return value of [enqueueAgent]: ['running' | 'queued']. *)
Inductive Admission := running | queued.

(** The texts written to the console, by template. *)
Inductive Message :=
| MsgQueued (id type : string) (inQueue : nat)
| MsgNotRunning (id : string)
| MsgCompleted (id type : string) (duration : Z)
| MsgStarted (id type : string) (nRunning : nat) (max : Z)
| MsgSpawning (id : string) (waitTime : Z).

Inductive Event :=
| Log (m : Message)
| Warn (m : Message)
| Invoke (cb : Callback) (task : AgentTask.t).

Record World := {
  this : AgentQueueManager;
  clock : nat → Z;
  ticks : nat;
  trace : list Event;
}.

(** ** Completions and the effect monad *)

Inductive Error := TypeError (msg : string).

Inductive Completion (A : Type) :=
| Normal (a : A)
| Throw (e : Error).
Arguments Normal {A} a.
Arguments Throw {A} e.

Definition Eff (A : Type) : Type := World → Completion A * World.

Definition eff_ret {A} (a : A) : Eff A := λ w, (Normal a, w).

Definition eff_bind {A B} (k : A → Eff B) (m : Eff A) : Eff B :=
  λ w, match m w with
       | (Normal a, w') => k a w'
       | (Throw e, w') => (Throw e, w')
       end.

#[global] Instance Eff_ret : MRet Eff := @eff_ret.
#[global] Instance Eff_bind : MBind Eff := @eff_bind.

Definition throw {A} (e : Error) : Eff A := λ w, (Throw e, w).

Definition get_this : Eff AgentQueueManager := λ w, (Normal (this w), w).

Definition modify_this (f : AgentQueueManager → AgentQueueManager) : Eff unit :=
  λ w, (Normal tt,
        {| this := f (this w); clock := clock w; ticks := ticks w; trace := trace w |}).

(** [Date.now()] *)
Definition date_now : Eff Z :=
  λ w, (Normal (clock w (ticks w)),
        {| this := this w; clock := clock w; ticks := S (ticks w); trace := trace w |}).

Definition emit (e : Event) : Eff unit :=
  λ w, (Normal tt,
        {| this := this w; clock := clock w; ticks := ticks w; trace := trace w ++ [e] |}).

(** Field assignments. *)
Definition with_running (f : gmap string RunningAgent.t → gmap string RunningAgent.t)
    (q : AgentQueueManager) : AgentQueueManager :=
  {| maxConcurrent := maxConcurrent q;
     runningAgents := f (runningAgents q);
     queuedAgents := queuedAgents q;
     onSpawnCallback := onSpawnCallback q |}.

Definition with_queued (f : list AgentTask.t → list AgentTask.t)
    (q : AgentQueueManager) : AgentQueueManager :=
  {| maxConcurrent := maxConcurrent q;
     runningAgents := runningAgents q;
     queuedAgents := f (queuedAgents q);
     onSpawnCallback := onSpawnCallback q |}.

Definition with_callback (cb : option Callback) (q : AgentQueueManager) : AgentQueueManager :=
  {| maxConcurrent := maxConcurrent q;
     runningAgents := runningAgents q;
     queuedAgents := queuedAgents q;
     onSpawnCallback := cb |}.

(** [Map.prototype.has] *)
Definition has (id : string) (m : gmap string RunningAgent.t) : bool :=
  match m !! id with Some _ => true | None => false end.

(** ** The class *)

(** [constructor(maxConcurrent: number = 2)]: an omitted argument takes the
    default.  A [new] expression ends with a completion like any call. *)
Definition constructor (maxConcurrent : option Z) : Completion AgentQueueManager :=
  Normal {| maxConcurrent := default 2 maxConcurrent;
            runningAgents := ∅;
            queuedAgents := [];
            onSpawnCallback := None |}.

Definition setSpawnCallback (callback : Callback) : Eff unit :=
  modify_this (with_callback (Some callback)).

Definition startAgent (task : AgentTask.t) : Eff unit :=
  now ← date_now;
  modify_this (with_running
    (insert (AgentTask.id task)
       (RunningAgent.mk (AgentTask.id task) (AgentTask.type task) now)));;
  q ← get_this;
  emit (Log (MsgStarted (AgentTask.id task) (AgentTask.type task)
               (size (runningAgents q)) (maxConcurrent q)));;
  match onSpawnCallback q with
  | Some cb => emit (Invoke cb task)
  | None => mret tt
  end.

(** [Array.prototype.shift]: [undefined] on an empty array. *)
Definition shift_queued : Eff (option AgentTask.t) :=
  q ← get_this;
  match queuedAgents q with
  | [] => mret None
  | t :: rest => modify_this (with_queued (λ _, rest));; mret (Some t)
  end.

Definition spawnNextQueued : Eff unit :=
  q ← get_this;
  if decide (length (queuedAgents q) = 0%nat) then mret tt
  else if Z.of_nat (size (runningAgents q)) >=? maxConcurrent q then mret tt
  else
    next ← shift_queued;
    now ← date_now;
    match next with
    | None => throw (TypeError "undefined is not an object (nextTask.enqueuedAt)")
    | Some nextTask =>
        emit (Log (MsgSpawning (AgentTask.id nextTask)
                     (now - AgentTask.enqueuedAt nextTask)));;
        startAgent nextTask
    end.

Definition enqueueAgent (id type prompt : string) : Eff Admission :=
  now ← date_now;
  let agentTask := AgentTask.mk id type prompt now in
  q ← get_this;
  if Z.of_nat (size (runningAgents q)) <? maxConcurrent q then
    startAgent agentTask;;
    mret running
  else
    modify_this (with_queued (λ l, l ++ [agentTask]));;
    q' ← get_this;
    emit (Log (MsgQueued id type (length (queuedAgents q'))));;
    mret queued.

Definition markAgentComplete (id : string) : Eff unit :=
  q ← get_this;
  if negb (has id (runningAgents q)) then
    emit (Warn (MsgNotRunning id))
  else
    let agent := runningAgents q !! id in
    now ← date_now;
    match agent with
    | None => throw (TypeError "undefined is not an object (agent.startedAt)")
    | Some agent =>
        let duration := now - RunningAgent.startedAt agent in
        modify_this (with_running (delete id));;
        emit (Log (MsgCompleted id (RunningAgent.type agent) duration));;
        spawnNextQueued
    end.

Definition getRunningCount (q : AgentQueueManager) : nat := size (runningAgents q).

Definition getQueuedCount (q : AgentQueueManager) : nat := length (queuedAgents q).

Definition isAgentRunning (id : string) (q : AgentQueueManager) : bool :=
  has id (runningAgents q).

Record Status := { st_running : nat; st_queued : nat; st_max : Z }.

Definition getStatus (q : AgentQueueManager) : Status :=
  {| st_running := size (runningAgents q);
     st_queued := length (queuedAgents q);
     st_max := maxConcurrent q |}.

(** ** Callers: scripts of calls on one instance *)

Inductive Call :=
| SetSpawnCallback (cb : Callback)
| Enqueue (id type prompt : string)
| Complete (id : string).

(** One call; the value is the answer of [enqueueAgent], when it is one. *)
Definition call (c : Call) : Eff (option Admission) :=
  match c with
  | SetSpawnCallback cb => setSpawnCallback cb;; mret None
  | Enqueue id type prompt => a ← enqueueAgent id type prompt; mret (Some a)
  | Complete id => markAgentComplete id;; mret None
  end.

(** The world after a script, call by call. *)
Definition exec (cs : list Call) (w : World) : World :=
  fold_left (λ w c, snd (call c w)) cs w.

(** [new AgentQueueManager(m)] on a host whose clock is [clk]. *)
Definition boot (m : option Z) (clk : nat → Z) : Completion World :=
  match constructor m with
  | Normal q => Normal {| this := q; clock := clk; ticks := 0; trace := [] |}
  | Throw e => Throw e
  end.

Inductive reachable (m : option Z) : World → Prop :=
| reachable_boot clk w : boot m clk = Normal w → reachable m w
| reachable_call c w : reachable m w → reachable m (snd (call c w)).

(** ** Arrival order and callback invocations *)

(** The task a call adds to the waiting list, told from the call and its
    answer alone: the one [enqueueAgent] answered ['queued'] for. *)
Definition arrival (c : Call) (answer : Completion (option Admission)) (now : Z)
    : list AgentTask.t :=
  match c, answer with
  | Enqueue id type prompt, Normal (Some queued) => [AgentTask.mk id type prompt now]
  | _, _ => []
  end.

(** The arrival order of the waiting tasks over a script: the arrivals of
    its calls, in call order. *)
Fixpoint arrivals (cs : list Call) (w : World) : list AgentTask.t :=
  match cs with
  | [] => []
  | c :: cs' =>
      arrival c (fst (call c w)) (clock w (ticks w)) ++ arrivals cs' (snd (call c w))
  end.

(** What [startAgent] hands to the callback, if one is registered. *)
Definition invocation (cb : option Callback) (task : AgentTask.t) : list Event :=
  match cb with
  | Some cb => [Invoke cb task]
  | None => []
  end.

(** The calls of the callback in a trace. *)
Definition invoked (tr : list Event) : list AgentTask.t :=
  omap (λ e, match e with Invoke _ task => Some task | _ => None end) tr.

(** ** The transitions of the object

    One constructor per path through a public mutator, with the world it
    leaves behind written out.  [call_step] shows that a call always takes
    exactly one of them, and returns normally. *)

Inductive step (w : World) : Call → option Admission → World → Prop :=
| step_set_callback cb :
    step w (SetSpawnCallback cb) None
      {| this := with_callback (Some cb) (this w);
         clock := clock w; ticks := ticks w; trace := trace w |}
| step_enqueue_running id type prompt :
    Z.of_nat (size (runningAgents (this w))) < maxConcurrent (this w) →
    step w (Enqueue id type prompt) (Some running)
      {| this := with_running
                   (insert id (RunningAgent.mk id type (clock w (S (ticks w)))))
                   (this w);
         clock := clock w;
         ticks := S (S (ticks w));
         trace := trace w ++
           Log (MsgStarted id type
                  (size (<[id := RunningAgent.mk id type (clock w (S (ticks w)))]>
                           (runningAgents (this w))))
                  (maxConcurrent (this w)))
           :: invocation (onSpawnCallback (this w))
                (AgentTask.mk id type prompt (clock w (ticks w))) |}
| step_enqueue_queued id type prompt :
    maxConcurrent (this w) ≤ Z.of_nat (size (runningAgents (this w))) →
    step w (Enqueue id type prompt) (Some queued)
      {| this := with_queued
                   (λ l, l ++ [AgentTask.mk id type prompt (clock w (ticks w))])
                   (this w);
         clock := clock w;
         ticks := S (ticks w);
         trace := trace w ++
           [Log (MsgQueued id type (S (length (queuedAgents (this w)))))] |}
| step_complete_unknown id :
    runningAgents (this w) !! id = None →
    step w (Complete id) None
      {| this := this w; clock := clock w; ticks := ticks w;
         trace := trace w ++ [Warn (MsgNotRunning id)] |}
| step_complete_idle id agent :
    runningAgents (this w) !! id = Some agent →
    queuedAgents (this w) = [] ∨
      maxConcurrent (this w) ≤ Z.of_nat (size (delete id (runningAgents (this w)))) →
    step w (Complete id) None
      {| this := with_running (delete id) (this w);
         clock := clock w;
         ticks := S (ticks w);
         trace := trace w ++
           [Log (MsgCompleted id (RunningAgent.type agent)
                   (clock w (ticks w) - RunningAgent.startedAt agent))] |}
| step_complete_promote id agent nextTask rest :
    runningAgents (this w) !! id = Some agent →
    queuedAgents (this w) = nextTask :: rest →
    Z.of_nat (size (delete id (runningAgents (this w)))) < maxConcurrent (this w) →
    step w (Complete id) None
      {| this :=
           {| maxConcurrent := maxConcurrent (this w);
              runningAgents :=
                <[AgentTask.id nextTask :=
                    RunningAgent.mk (AgentTask.id nextTask) (AgentTask.type nextTask)
                      (clock w (S (S (ticks w))))]>
                  (delete id (runningAgents (this w)));
              queuedAgents := rest;
              onSpawnCallback := onSpawnCallback (this w) |};
         clock := clock w;
         ticks := S (S (S (ticks w)));
         trace := trace w ++
           [Log (MsgCompleted id (RunningAgent.type agent)
                   (clock w (ticks w) - RunningAgent.startedAt agent));
            Log (MsgSpawning (AgentTask.id nextTask)
                   (clock w (S (ticks w)) - AgentTask.enqueuedAt nextTask));
            Log (MsgStarted (AgentTask.id nextTask) (AgentTask.type nextTask)
                   (size (<[AgentTask.id nextTask :=
                              RunningAgent.mk (AgentTask.id nextTask)
                                (AgentTask.type nextTask)
                                (clock w (S (S (ticks w))))]>
                            (delete id (runningAgents (this w)))))
                   (maxConcurrent (this w)))]
           ++ invocation (onSpawnCallback (this w)) nextTask |}.

(** ** Invariants *)

(** The running set holds at most [maxConcurrent] agents, and none when the
    capacity is not positive. *)
Definition capped (w : World) : Prop :=
  Z.of_nat (size (runningAgents (this w))) ≤ Z.max 0 (maxConcurrent (this w)).

(** ** Requests *)

(** A request for a task, as [enqueueAgent] receives it: id, type, prompt. *)
Definition request (task : AgentTask.t) : string * string * string :=
  (AgentTask.id task, AgentTask.type task, AgentTask.prompt task).

Definition enqueue_all (requests : list (string * string * string)) : list Call :=
  (λ r, Enqueue r.1.1 r.1.2 r.2) <$> requests.

(** ** Ids *)

Definition waiting_ids (w : World) : list string :=
  AgentTask.id <$> queuedAgents (this w).

(** No id is both waiting and running, and none occurs twice in either
    collection. *)
Definition ids_unique (w : World) : Prop :=
  NoDup (waiting_ids w)
  ∧ NoDup ((map_to_list (runningAgents (this w))).*1)
  ∧ ∀ id, id ∈ waiting_ids w → runningAgents (this w) !! id = None.

(** The ids the queue knows. *)
Definition known (id : string) (w : World) : Prop :=
  is_Some (runningAgents (this w) !! id) ∨ id ∈ waiting_ids w.

(** The worlds reached when the caller keeps the precondition of
    [enqueueAgent]: the id is not known to the queue at the call. *)
Inductive reachable_distinct (m : option Z) : World → Prop :=
| distinct_boot clk w : boot m clk = Normal w → reachable_distinct m w
| distinct_call c w :
    reachable_distinct m w →
    (∀ id type prompt, c = Enqueue id type prompt → ¬ known id w) →
    reachable_distinct m (snd (call c w)).

(** ** Sample worlds *)

(** A host whose clock advances by one millisecond per read. *)
Definition clock0 : nat → Z := λ n, 1000 + Z.of_nat n.

(** The world right after [new AgentQueueManager(m)] on that host. *)
Definition fresh (m : option Z) : World :=
  {| this := {| maxConcurrent := default 2 m; runningAgents := ∅;
                queuedAgents := []; onSpawnCallback := None |};
     clock := clock0; ticks := 0; trace := [] |}.

(** The scenario of the test file: three agents on a queue of two. *)
Definition abc : list (string * string * string) :=
  [("agent-1", "researcher", "test1");
   ("agent-2", "coder", "test2");
   ("agent-3", "debugger", "test3")].

(** A script that leaves a slot free while a task waits: ["agent-1"] is
    enqueued again while it runs, waits, and is promoted onto its own
    entry. *)
Definition free_slot_script : list Call :=
  [Enqueue "agent-1" "researcher" "test1";
   Enqueue "agent-2" "coder" "test2";
   Enqueue "agent-1" "researcher" "again";
   Enqueue "agent-3" "debugger" "test3";
   Complete "agent-2"].

(** ** Scripts of completions, clocks and console figures *)

(** Every id of the list is running when its turn to be completed comes. *)
Fixpoint all_running (ids : list string) (w : World) : Prop :=
  match ids with
  | [] => True
  | id :: ids' =>
      isAgentRunning id (this w) = true
      ∧ all_running ids' (snd (call (Complete id) w))
  end.

(** A clock that never runs backwards. *)
Definition monotone (clk : nat → Z) : Prop :=
  ∀ i j, (i ≤ j)%nat → clk i ≤ clk j.

(** The time span a console line reports: the duration of a completed
    agent, the wait of a promoted one. *)
Definition elapsed (e : Event) : option Z :=
  match e with
  | Log (MsgCompleted _ _ duration) => Some duration
  | Log (MsgSpawning _ waitTime) => Some waitTime
  | _ => None
  end.

(** The timestamps held by the object were read from the clock, those of
    the waiting tasks in the order of the list. *)
Definition stamped (w : World) : Prop :=
  (∃ ns, AgentTask.enqueuedAt <$> queuedAgents (this w) = clock w <$> ns
         ∧ StronglySorted lt ns
         ∧ Forall (λ n, n < ticks w)%nat ns)
  ∧ ∀ id agent, runningAgents (this w) !! id = Some agent →
      ∃ n, (n < ticks w)%nat ∧ RunningAgent.startedAt agent = clock w n.

(** ** Provenance and announcements *)

(** Every waiting task and every running entry was put there by an
    [enqueueAgent] of the script, under its id and with its type. *)
Definition from_script (cs : list Call) (w : World) : Prop :=
  (∀ task, task ∈ queuedAgents (this w) →
     Enqueue (AgentTask.id task) (AgentTask.type task) (AgentTask.prompt task) ∈ cs)
  ∧ ∀ id agent, runningAgents (this w) !! id = Some agent →
      RunningAgent.id agent = id
      ∧ ∃ prompt, Enqueue id (RunningAgent.type agent) prompt ∈ cs.

(** Every running agent has been handed to a callback. *)
Definition announced (w : World) : Prop :=
  ∀ id agent, runningAgents (this w) !! id = Some agent →
    ∃ task, task ∈ invoked (trace w)
      ∧ AgentTask.id task = id
      ∧ AgentTask.type task = RunningAgent.type agent.

(** * Equations of the methods *)

Ltac run_eff :=
  unfold mbind, Eff_bind, eff_bind, mret, Eff_ret, eff_ret,
    get_this, modify_this, date_now, emit, throw; simpl.

Section equations.
Implicit Types (w : World) (task : AgentTask.t) (id type prompt : string).

Lemma startAgent_eq task w :
  startAgent task w =
  (Normal tt,
   {| this := with_running
                (insert (AgentTask.id task)
                   (RunningAgent.mk (AgentTask.id task) (AgentTask.type task)
                      (clock w (ticks w))))
                (this w);
      clock := clock w;
      ticks := S (ticks w);
      trace := trace w ++
        Log (MsgStarted (AgentTask.id task) (AgentTask.type task)
               (size (<[AgentTask.id task :=
                        RunningAgent.mk (AgentTask.id task) (AgentTask.type task)
                          (clock w (ticks w))]> (runningAgents (this w))))
               (maxConcurrent (this w)))
        :: invocation (onSpawnCallback (this w)) task |}).
Proof.
  unfold startAgent. run_eff.
  destruct (onSpawnCallback (this w)); simpl; run_eff;
    [by rewrite <- app_assoc | done].
Qed.

Lemma spawnNextQueued_empty w :
  queuedAgents (this w) = [] → spawnNextQueued w = (Normal tt, w).
Proof. intros Hq. unfold spawnNextQueued. run_eff. by rewrite Hq. Qed.

Lemma spawnNextQueued_full w :
  maxConcurrent (this w) ≤ Z.of_nat (size (runningAgents (this w))) →
  spawnNextQueued w = (Normal tt, w).
Proof.
  intros Hfull. unfold spawnNextQueued. run_eff.
  case_decide; [done|].
  destruct (Z.geb_spec (Z.of_nat (size (runningAgents (this w))))
              (maxConcurrent (this w))); [done | lia].
Qed.

Lemma spawnNextQueued_promote w nextTask rest :
  queuedAgents (this w) = nextTask :: rest →
  Z.of_nat (size (runningAgents (this w))) < maxConcurrent (this w) →
  spawnNextQueued w =
  startAgent nextTask
    {| this := with_queued (λ _, rest) (this w);
       clock := clock w;
       ticks := S (ticks w);
       trace := trace w ++
         [Log (MsgSpawning (AgentTask.id nextTask)
                 (clock w (ticks w) - AgentTask.enqueuedAt nextTask))] |}.
Proof.
  intros Hq Hfree. unfold spawnNextQueued, shift_queued. run_eff.
  rewrite Hq. case_decide; [done|].
  destruct (Z.geb_spec (Z.of_nat (size (runningAgents (this w))))
              (maxConcurrent (this w))); [lia | ].
  by rewrite Hq.
Qed.

Lemma enqueueAgent_running id type prompt w :
  Z.of_nat (size (runningAgents (this w))) < maxConcurrent (this w) →
  enqueueAgent id type prompt w =
  (Normal running,
   snd (startAgent (AgentTask.mk id type prompt (clock w (ticks w)))
          (snd (date_now w)))).
Proof.
  intros Hfree. unfold enqueueAgent.
  unfold mbind, Eff_bind, eff_bind at 1 2. simpl.
  destruct (Z.ltb_spec (Z.of_nat (size (runningAgents (this w))))
              (maxConcurrent (this w))); [|lia].
  unfold eff_bind. by rewrite startAgent_eq.
Qed.

Lemma enqueueAgent_queued id type prompt w :
  maxConcurrent (this w) ≤ Z.of_nat (size (runningAgents (this w))) →
  enqueueAgent id type prompt w =
  (Normal queued,
   {| this := with_queued
                (λ l, l ++ [AgentTask.mk id type prompt (clock w (ticks w))])
                (this w);
      clock := clock w;
      ticks := S (ticks w);
      trace := trace w ++
        [Log (MsgQueued id type
                (length (queuedAgents (this w) ++
                         [AgentTask.mk id type prompt (clock w (ticks w))])))] |}).
Proof.
  intros Hfull. unfold enqueueAgent. run_eff.
  destruct (Z.ltb_spec (Z.of_nat (size (runningAgents (this w))))
              (maxConcurrent (this w))); [lia | done].
Qed.

Lemma markAgentComplete_unknown id w :
  runningAgents (this w) !! id = None →
  markAgentComplete id w =
  (Normal tt,
   {| this := this w; clock := clock w; ticks := ticks w;
      trace := trace w ++ [Warn (MsgNotRunning id)] |}).
Proof.
  intros Hid. unfold markAgentComplete, has. run_eff. by rewrite Hid.
Qed.

Lemma markAgentComplete_running id w agent :
  runningAgents (this w) !! id = Some agent →
  markAgentComplete id w =
  spawnNextQueued
    {| this := with_running (delete id) (this w);
       clock := clock w;
       ticks := S (ticks w);
       trace := trace w ++
         [Log (MsgCompleted id (RunningAgent.type agent)
                 (clock w (ticks w) - RunningAgent.startedAt agent))] |}.
Proof.
  intros Hid. unfold markAgentComplete, has.
  unfold mbind, Eff_bind, eff_bind at 1. simpl. rewrite Hid. simpl.
  unfold eff_bind at 1 2. simpl. unfold eff_bind at 1. simpl.
  by destruct (spawnNextQueued _) as [[]].
Qed.
End equations.

Lemma call_step c w :
  ∃ r w', call c w = (Normal r, w') ∧ step w c r w'.
Proof.
  destruct c as [cb | id type prompt | id]; simpl.
  - eexists _, _. split; [reflexivity | constructor].
  - destruct (Z.lt_ge_cases (Z.of_nat (size (runningAgents (this w))))
                (maxConcurrent (this w))) as [Hfree | Hfull].
    + eexists _, _. split; [| by apply step_enqueue_running].
      unfold mbind, Eff_bind, eff_bind at 1.
      rewrite enqueueAgent_running; [|done]. by rewrite startAgent_eq.
    + eexists _, _. split; [| by apply step_enqueue_queued].
      unfold mbind, Eff_bind, eff_bind at 1.
      rewrite enqueueAgent_queued; [|done]. simpl.
      by rewrite length_app, Nat.add_1_r.
  - unfold mbind, Eff_bind, eff_bind at 1.
    destruct (runningAgents (this w) !! id) as [agent|] eqn:Hid.
    + rewrite (markAgentComplete_running _ _ agent); [|done].
      destruct (queuedAgents (this w)) as [|nextTask rest] eqn:Hq.
      { rewrite spawnNextQueued_empty; [|done].
        eexists _, _. split; [reflexivity|]. apply step_complete_idle; auto. }
      destruct (Z.lt_ge_cases
                  (Z.of_nat (size (delete id (runningAgents (this w)))))
                  (maxConcurrent (this w))) as [Hfree | Hfull].
      * rewrite (spawnNextQueued_promote _ nextTask rest); [| done | done].
        rewrite startAgent_eq. simpl.
        eexists _, _. split; [|by eapply step_complete_promote].
        unfold with_running, with_queued; simpl.
        unfold mret, Eff_ret, eff_ret. by rewrite <- !app_assoc.
      * rewrite spawnNextQueued_full; [|done].
        eexists _, _. split; [reflexivity|]. apply step_complete_idle; auto.
    + rewrite markAgentComplete_unknown; [|done].
      eexists _, _. split; [reflexivity|]. by apply step_complete_unknown.
Qed.

(** A call never ends abruptly. *)
Lemma call_normal c w : ∃ r, fst (call c w) = Normal r.
Proof. destruct (call_step c w) as (r & w' & -> & _). by exists r. Qed.

Lemma call_snd_step c w : ∃ r, step w c r (snd (call c w)).
Proof. destruct (call_step c w) as (r & w' & -> & Hs). by exists r. Qed.

(** * Reachable worlds and scripts *)

Lemma exec_snoc cs c w : exec (cs ++ [c]) w = snd (call c (exec cs w)).
Proof. unfold exec. by rewrite fold_left_app. Qed.

Lemma exec_cons c cs w : exec (c :: cs) w = exec cs (snd (call c w)).
Proof. reflexivity. Qed.

Lemma reachable_exec m cs w : reachable m w → reachable m (exec cs w).
Proof.
  revert w. induction cs as [|c cs IH]; intros w Hw; [done|].
  rewrite exec_cons. apply IH. by constructor.
Qed.

Lemma reachable_script m w :
  reachable m w ↔ ∃ clk w0 cs, boot m clk = Normal w0 ∧ w = exec cs w0.
Proof.
  split.
  - induction 1 as [clk w Hboot | c w _ (clk & w0 & cs & Hboot & ->)].
    + by exists clk, w, [].
    + exists clk, w0, (cs ++ [c]). by rewrite exec_snoc.
  - intros (clk & w0 & cs & Hboot & ->).
    apply reachable_exec. by apply (reachable_boot _ clk).
Qed.

Lemma boot_this m clk w :
  boot m clk = Normal w →
  this w = {| maxConcurrent := default 2 m; runningAgents := ∅;
              queuedAgents := []; onSpawnCallback := None |}
  ∧ trace w = [] ∧ ticks w = 0%nat ∧ clock w = clk.
Proof. unfold boot, constructor. by intros [= <-]. Qed.

Lemma boot_fresh m : boot m clock0 = Normal (fresh m).
Proof. reflexivity. Qed.

Lemma reachable_fresh_exec m cs : reachable m (exec cs (fresh m)).
Proof. apply reachable_exec, (reachable_boot _ clock0), boot_fresh. Qed.

Lemma has_is_Some id (m : gmap string RunningAgent.t) :
  has id m = true ↔ is_Some (m !! id).
Proof.
  unfold has. destruct (m !! id); split; done.
Qed.

Lemma has_false id (m : gmap string RunningAgent.t) :
  has id m = false ↔ m !! id = None.
Proof. unfold has. by destruct (m !! id). Qed.

(** * Invariants *)

(** The capacity is fixed at construction. *)
Lemma step_maxConcurrent w c r w' :
  step w c r w' → maxConcurrent (this w') = maxConcurrent (this w).
Proof. by destruct 1. Qed.

Lemma reachable_maxConcurrent m w :
  reachable m w → maxConcurrent (this w) = default 2 m.
Proof.
  induction 1 as [clk w Hboot | c w _ IH].
  - apply boot_this in Hboot as (-> & _). done.
  - destruct (call_snd_step c w) as [r Hs].
    by rewrite (step_maxConcurrent _ _ _ _ Hs).
Qed.

Lemma size_insert_le (id : string) (a : RunningAgent.t) (m : gmap string RunningAgent.t) :
  (size (<[id := a]> m) ≤ S (size m))%nat.
Proof. rewrite map_size_insert. destruct (m !! id); simpl; lia. Qed.

Lemma size_delete_le (id : string) (m : gmap string RunningAgent.t) :
  (size (delete id m) ≤ size m)%nat.
Proof. rewrite map_size_delete. destruct (m !! id); simpl; lia. Qed.

Lemma size_delete_running (id : string) (a : RunningAgent.t)
    (m : gmap string RunningAgent.t) :
  m !! id = Some a → S (size (delete id m)) = size m.
Proof.
  intros Hid. rewrite map_size_delete, Hid.
  assert (size m ≠ 0%nat); [|simpl; lia].
  apply map_size_non_empty_iff. intros ->. by rewrite lookup_empty in Hid.
Qed.

Lemma step_capped w c r w' : step w c r w' → capped w → capped w'.
Proof.
  unfold capped.
  destruct 1 as [cb | id ty p Hfree | id ty p Hfull | id Hid
                | id agent Hid _ | id agent t rest Hid Hq Hfree];
    simpl; intros Hcap; try done.
  - pose proof (size_insert_le id (RunningAgent.mk id ty (clock w (S (ticks w))))
                  (runningAgents (this w))). lia.
  - pose proof (size_delete_le id (runningAgents (this w))). lia.
  - pose proof (size_insert_le (AgentTask.id t)
                  (RunningAgent.mk (AgentTask.id t) (AgentTask.type t)
                     (clock w (S (S (ticks w)))))
                  (delete id (runningAgents (this w)))). lia.
Qed.

Lemma reachable_capped m w : reachable m w → capped w.
Proof.
  induction 1 as [clk w Hboot | c w _ IH].
  - apply boot_this in Hboot as (Hthis & _). unfold capped.
    rewrite Hthis; simpl. rewrite map_size_empty. lia.
  - destruct (call_snd_step c w) as [r Hs]. by eapply step_capped.
Qed.

(** Once an agent runs, taking it out leaves a free slot. *)
Lemma capped_delete_free w id agent :
  capped w → runningAgents (this w) !! id = Some agent →
  Z.of_nat (size (delete id (runningAgents (this w)))) < maxConcurrent (this w).
Proof.
  unfold capped. intros Hcap Hid.
  pose proof (size_delete_running _ _ _ Hid). lia.
Qed.

(** * C1: the capacity bound *)

(** C1.  On a queue constructed with a positive [maxConcurrent] M, after
    any sequence of calls ([enqueueAgent], [markAgentComplete], and
    [setSpawnCallback]) the number of running agents, [getRunningCount()],
    is at most M. *)
Theorem running_count_bounded (M : Z) (w : World) :
  0 < M → reachable (Some M) w → Z.of_nat (getRunningCount (this w)) ≤ M.
Proof.
  intros HM Hw. unfold getRunningCount.
  pose proof (reachable_capped _ _ Hw) as Hcap. unfold capped in Hcap.
  rewrite (reachable_maxConcurrent _ _ Hw) in Hcap. simpl in Hcap. lia.
Qed.

Lemma running_count_bounded_witness :
  Z.of_nat (getRunningCount
              (this (exec (enqueue_all abc ++ [Complete "agent-1"]) (fresh (Some 2))))) ≤ 2.
Proof.
  apply running_count_bounded; [lia | apply reachable_fresh_exec].
Defined.

(** * The methods, through the transitions *)

Lemma markAgentComplete_step id w :
  ∃ w', markAgentComplete id w = (Normal tt, w') ∧ step w (Complete id) None w'.
Proof.
  destruct (call_step (Complete id) w) as (r & w' & Heq & Hs).
  simpl in Heq. unfold mbind, Eff_bind, eff_bind in Heq.
  destruct (markAgentComplete id w) as [[[]|e] w1]; [|done].
  injection Heq as <- <-. by exists w1.
Qed.

Lemma enqueueAgent_step id type prompt w :
  ∃ a w', enqueueAgent id type prompt w = (Normal a, w')
          ∧ step w (Enqueue id type prompt) (Some a) w'.
Proof.
  destruct (call_step (Enqueue id type prompt) w) as (r & w' & Heq & Hs).
  simpl in Heq. unfold mbind, Eff_bind, eff_bind in Heq.
  destruct (enqueueAgent id type prompt w) as [[a|e] w1]; [|done].
  injection Heq as <- <-. by exists a, w1.
Qed.

(** What a completion of a running agent does when a task waits and the
    removal frees a slot. *)
Lemma step_complete_promote_inv w id r w' agent nextTask rest :
  step w (Complete id) r w' →
  runningAgents (this w) !! id = Some agent →
  queuedAgents (this w) = nextTask :: rest →
  Z.of_nat (size (delete id (runningAgents (this w)))) < maxConcurrent (this w) →
  queuedAgents (this w') = rest
  ∧ runningAgents (this w') =
      <[AgentTask.id nextTask :=
          RunningAgent.mk (AgentTask.id nextTask) (AgentTask.type nextTask)
            (clock w (S (S (ticks w))))]> (delete id (runningAgents (this w)))
  ∧ ∃ logs, invoked logs = []
      ∧ trace w' = trace w ++ logs ++ invocation (onSpawnCallback (this w)) nextTask.
Proof.
  intros Hs Hid Hq Hfree. inversion Hs; subst.
  - congruence.
  - destruct H1 as [Hnil | Hfull]; [congruence | lia].
  - assert (nextTask0 = nextTask ∧ rest0 = rest) as [-> ->] by (split; congruence).
    split; [done|]. split; [done|].
    eexists. split; [|unfold trace at 1; reflexivity]. done.
Qed.

Lemma invoked_app tr1 tr2 : invoked (tr1 ++ tr2) = invoked tr1 ++ invoked tr2.
Proof. apply omap_app. Qed.

Lemma invoked_invocation cb task :
  invoked (invocation cb task) = match cb with Some _ => [task] | None => [] end.
Proof. by destruct cb. Qed.

(** * Arrival order *)

(** The waiting list is what remains of the arrivals once the tasks served
    so far are taken from the front. *)
Lemma arrivals_served cs w :
  ∃ served,
    queuedAgents (this w) ++ arrivals cs w =
    served ++ queuedAgents (this (exec cs w)).
Proof.
  revert w. induction cs as [|c cs IH]; intros w.
  { exists []. simpl. by rewrite app_nil_r. }
  rewrite exec_cons. cbn [arrivals].
  destruct (IH (snd (call c w))) as [served Hserved].
  destruct (call_step c w) as (r & w' & Heq & Hs). rewrite Heq in *. simpl in *.
  destruct Hs as [cb | id ty p Hfree | id ty p Hfull | id Hid
                 | id agent Hid _ | id agent t rest Hid Hq Hfree];
    simpl in *; try (by exists served).
  - exists served. by rewrite <- Hserved, <- app_assoc.
  - exists (t :: served). rewrite Hq. simpl. by rewrite Hserved.
Qed.

(** An arrival carries the type and the prompt its [enqueueAgent] call was
    given. *)
Lemma arrivals_enqueued cs w task :
  task ∈ arrivals cs w →
  Enqueue (AgentTask.id task) (AgentTask.type task) (AgentTask.prompt task) ∈ cs.
Proof.
  revert w. induction cs as [|c cs IH]; intros w; simpl; [by intros ?%elem_of_nil|].
  intros [Hhere | Hlater]%elem_of_app.
  - unfold arrival in Hhere.
    destruct c as [cb | id ty p | id]; try (by apply elem_of_nil in Hhere).
    destruct (fst (call (Enqueue id ty p) w)) as [[[]|]|];
      try (by apply elem_of_nil in Hhere).
    apply list_elem_of_singleton in Hhere as ->. simpl. left.
  - right. by eapply IH.
Qed.

(** * C2: promotion is first in, first out *)

(** C2.  In every state a script of calls leads to, if the waiting list is
    not empty, [markAgentComplete] on a running id returns normally and
    promotes the head of the waiting list: the head leaves the list, is
    recorded as running under its own id and type, and the registered
    callback is invoked once, with that very task.  The head is the
    earliest arrival still waiting: the arrivals, in call order, are the
    tasks served before followed by the waiting list; and its type and
    prompt are those of its [enqueueAgent] call. *)
Theorem complete_promotes_earliest
    (m : option Z) (clk : nat → Z) (w0 : World) (cs : list Call)
    (id : string) (nextTask : AgentTask.t) (rest : list AgentTask.t) :
  boot m clk = Normal w0 →
  isAgentRunning id (this (exec cs w0)) = true →
  queuedAgents (this (exec cs w0)) = nextTask :: rest →
  fst (markAgentComplete id (exec cs w0)) = Normal tt
  ∧ queuedAgents (this (snd (markAgentComplete id (exec cs w0)))) = rest
  ∧ runningAgents (this (snd (markAgentComplete id (exec cs w0))))
      !! AgentTask.id nextTask =
    Some (RunningAgent.mk (AgentTask.id nextTask) (AgentTask.type nextTask)
            (clock (exec cs w0) (S (S (ticks (exec cs w0))))))
  ∧ (∀ cb, onSpawnCallback (this (exec cs w0)) = Some cb →
       ∃ logs, invoked logs = []
         ∧ trace (snd (markAgentComplete id (exec cs w0))) =
           trace (exec cs w0) ++ logs ++ [Invoke cb nextTask])
  ∧ (∃ served, arrivals cs w0 = served ++ nextTask :: rest)
  ∧ Enqueue (AgentTask.id nextTask) (AgentTask.type nextTask)
      (AgentTask.prompt nextTask) ∈ cs.
Proof.
  intros Hboot Hrun Hq.
  assert (reachable m (exec cs w0)) as Hreach
    by (apply reachable_exec; by apply (reachable_boot _ clk)).
  unfold isAgentRunning, has in Hrun.
  destruct (runningAgents (this (exec cs w0)) !! id) as [agent|] eqn:Hid; [|done].
  pose proof (capped_delete_free _ _ _ (reachable_capped _ _ Hreach) Hid) as Hfree.
  destruct (markAgentComplete_step id (exec cs w0)) as (w' & Heq & Hs).
  rewrite Heq; simpl.
  destruct (step_complete_promote_inv _ _ _ _ _ _ _ Hs Hid Hq Hfree)
    as (Hq' & Hr' & logs & Hlogs & Htr).
  destruct (arrivals_served cs w0) as [served Hserved].
  apply boot_this in Hboot as (Hthis & _).
  rewrite Hthis, Hq in Hserved; simpl in Hserved.
  split; [done|]. split; [done|].
  split; [by rewrite Hr', lookup_insert_eq|].
  split; [intros cb Hcb; exists logs; by rewrite Htr, Hcb|].
  split; [by exists served|].
  apply (arrivals_enqueued cs w0). rewrite Hserved.
  apply elem_of_app. right. left.
Qed.

Lemma complete_promotes_earliest_witness :
  queuedAgents
    (this (snd (markAgentComplete "agent-1"
                  (exec (SetSpawnCallback {| cb_ref := 7 |} :: enqueue_all abc)
                     (fresh (Some 1)))))) =
    [AgentTask.mk "agent-3" "debugger" "test3" 1003]
  ∧ arrivals (SetSpawnCallback {| cb_ref := 7 |} :: enqueue_all abc) (fresh (Some 1)) =
    [AgentTask.mk "agent-2" "coder" "test2" 1002;
     AgentTask.mk "agent-3" "debugger" "test3" 1003].
Proof.
  split; [|reflexivity].
  apply (complete_promotes_earliest (Some 1) clock0 (fresh (Some 1))
           (SetSpawnCallback {| cb_ref := 7 |} :: enqueue_all abc) "agent-1"
           (AgentTask.mk "agent-2" "coder" "test2" 1002)
           [AgentTask.mk "agent-3" "debugger" "test3" 1003]);
    reflexivity.
Defined.

(** * Enqueuing many tasks *)

(** The two ways [enqueueAgent] can go. *)
Lemma step_enqueue_inv w id type prompt r w' :
  step w (Enqueue id type prompt) r w' →
  (Z.of_nat (size (runningAgents (this w))) < maxConcurrent (this w)
   ∧ r = Some running
   ∧ runningAgents (this w') =
       <[id := RunningAgent.mk id type (clock w (S (ticks w)))]>
         (runningAgents (this w))
   ∧ queuedAgents (this w') = queuedAgents (this w)
   ∧ trace w' = trace w ++
       Log (MsgStarted id type (size (runningAgents (this w')))
              (maxConcurrent (this w)))
       :: invocation (onSpawnCallback (this w))
            (AgentTask.mk id type prompt (clock w (ticks w))))
  ∨ (maxConcurrent (this w) ≤ Z.of_nat (size (runningAgents (this w)))
     ∧ r = Some queued
     ∧ runningAgents (this w') = runningAgents (this w)
     ∧ queuedAgents (this w') =
         queuedAgents (this w) ++ [AgentTask.mk id type prompt (clock w (ticks w))]
     ∧ trace w' = trace w ++
         [Log (MsgQueued id type (length (queuedAgents (this w'))))]).
Proof.
  inversion 1; subst; [left | right]; simpl.
  - done.
  - by rewrite length_app, Nat.add_1_r.
Qed.

(** Requests with fresh, distinct ids fill the free slots in order; the
    others wait, in order. *)
Lemma enqueue_all_fresh (requests : list (string * string * string)) (w : World)
    (free : nat) :
  Z.of_nat (size (runningAgents (this w))) + Z.of_nat free = maxConcurrent (this w) →
  NoDup (requests.*1.*1) →
  (∀ id, id ∈ requests.*1.*1 → runningAgents (this w) !! id = None) →
  size (runningAgents (this (exec (enqueue_all requests) w))) =
    (size (runningAgents (this w)) + free `min` length requests)%nat
  ∧ request <$> queuedAgents (this (exec (enqueue_all requests) w)) =
      (request <$> queuedAgents (this w)) ++ drop free requests
  ∧ (∀ id, is_Some (runningAgents (this (exec (enqueue_all requests) w)) !! id) ↔
           is_Some (runningAgents (this w) !! id)
           ∨ id ∈ (take free requests).*1.*1).
Proof.
  revert w free.
  induction requests as [|[[id ty] p] requests IH]; intros w free Hfree Hnd Hfresh.
  { simpl. rewrite Nat.min_0_r, Nat.add_0_r, drop_nil, app_nil_r, take_nil.
    split; [done|]. split; [done|]. intros i. simpl. rewrite elem_of_nil. tauto. }
  change (((id, ty, p) :: requests).*1.*1) with (id :: requests.*1.*1) in *.
  apply NoDup_cons in Hnd as [Hid Hnd].
  assert (runningAgents (this w) !! id = None) as Hnew
    by (apply Hfresh, list_elem_of_here).
  change (exec (enqueue_all ((id, ty, p) :: requests)) w)
    with (exec (enqueue_all requests) (snd (call (Enqueue id ty p) w))).
  destruct (call_step (Enqueue id ty p) w) as (r & w' & Heq & Hs).
  rewrite Heq. cbn [snd]. clear Heq.
  pose proof (step_maxConcurrent _ _ _ _ Hs) as Hmax.
  apply step_enqueue_inv in Hs
    as [(Hslot & _ & Hr & Hq & _) | (Hfull & _ & Hr & Hq & _)].
  - destruct free as [|free]; [lia|].
    destruct (IH w' free) as (Hsize & Hqueue & Hkeys).
    + rewrite Hmax, Hr, map_size_insert_None; [lia | done].
    + done.
    + intros i Hi. rewrite Hr, lookup_insert_ne; [|by intros ->].
      by apply Hfresh, list_elem_of_further.
    + rewrite Hsize, Hqueue, Hr, Hq, map_size_insert_None by done.
      split; [simpl; lia|]. split; [done|].
      intros i. etrans; [apply Hkeys|]. rewrite Hr, lookup_insert_is_Some.
      change ((take (S free) ((id, ty, p) :: requests)).*1.*1)
        with (id :: (take free requests).*1.*1).
      rewrite elem_of_cons.
      destruct (decide (id = i)); intuition auto.
  - assert (free = 0%nat) as -> by lia.
    destruct (IH w' 0%nat) as (Hsize & Hqueue & Hkeys).
    + rewrite Hmax, Hr. lia.
    + done.
    + intros i Hi. rewrite Hr. by apply Hfresh, list_elem_of_further.
    + rewrite Hsize, Hqueue, Hr, Hq, fmap_app, <- app_assoc.
      split; [simpl; lia|]. split; [done|].
      intros i. etrans; [apply Hkeys|]. by rewrite Hr.
Qed.

(** * C3: admission *)

(** C3.  [enqueueAgent(id, {type, prompt})] in any state: if the running
    count is strictly below [maxConcurrent], the task is recorded as
    running, the callback (if one is registered) is invoked within the
    call with that task, the waiting list is left alone and the answer is
    ['running']; otherwise the task is appended to the tail of the waiting
    list, the running set is left alone, nothing but a log line is emitted
    and the answer is ['queued'].  Consequently, enqueuing M + k requests
    with distinct ids (k >= 1) on a fresh queue of capacity M leaves
    exactly M running and k queued: the first M requests run and the
    waiting list is the other k, in order, so none is dropped. *)
Theorem enqueue_runs_or_queues
    (w : World) (id type prompt : string)
    (M : Z) (k : nat) (clk : nat → Z) (w0 : World)
    (requests : list (string * string * string)) :
  0 < M → (1 ≤ k)%nat →
  boot (Some M) clk = Normal w0 →
  NoDup (requests.*1.*1) →
  Z.of_nat (length requests) = M + Z.of_nat k →
  (if Z.of_nat (getRunningCount (this w)) <? maxConcurrent (this w) then
     fst (enqueueAgent id type prompt w) = Normal running
     ∧ runningAgents (this (snd (enqueueAgent id type prompt w))) =
         <[id := RunningAgent.mk id type (clock w (S (ticks w)))]>
           (runningAgents (this w))
     ∧ queuedAgents (this (snd (enqueueAgent id type prompt w))) =
         queuedAgents (this w)
     ∧ trace (snd (enqueueAgent id type prompt w)) =
         trace w ++
         Log (MsgStarted id type
                (size (runningAgents (this (snd (enqueueAgent id type prompt w)))))
                (maxConcurrent (this w)))
         :: invocation (onSpawnCallback (this w))
              (AgentTask.mk id type prompt (clock w (ticks w)))
   else
     fst (enqueueAgent id type prompt w) = Normal queued
     ∧ queuedAgents (this (snd (enqueueAgent id type prompt w))) =
         queuedAgents (this w) ++ [AgentTask.mk id type prompt (clock w (ticks w))]
     ∧ runningAgents (this (snd (enqueueAgent id type prompt w))) =
         runningAgents (this w)
     ∧ trace (snd (enqueueAgent id type prompt w)) =
         trace w ++
         [Log (MsgQueued id type
                 (length (queuedAgents (this (snd (enqueueAgent id type prompt w))))))])
  ∧ getRunningCount (this (exec (enqueue_all requests) w0)) = Z.to_nat M
  ∧ getQueuedCount (this (exec (enqueue_all requests) w0)) = k
  ∧ (∀ r, r ∈ take (Z.to_nat M) requests →
          isAgentRunning r.1.1 (this (exec (enqueue_all requests) w0)) = true)
  ∧ request <$> queuedAgents (this (exec (enqueue_all requests) w0)) =
      drop (Z.to_nat M) requests.
Proof.
  intros HM Hk Hboot Hnd Hlen. split.
  - destruct (enqueueAgent_step id type prompt w) as (a & w' & Heq & Hs).
    rewrite Heq. cbn [fst snd]. unfold getRunningCount.
    apply step_enqueue_inv in Hs
      as [(Hslot & [= ->] & Hr & Hq & Htr) | (Hfull & [= ->] & Hr & Hq & Htr)];
      destruct (Z.ltb_spec (Z.of_nat (size (runningAgents (this w))))
                  (maxConcurrent (this w))); try lia; by rewrite <- ?Hr.
  - apply boot_this in Hboot as (Hthis & _).
    destruct (enqueue_all_fresh requests w0 (Z.to_nat M))
      as (Hsize & Hqueue & Hkeys).
    { rewrite Hthis. simpl. rewrite map_size_empty. lia. }
    { done. }
    { intros i _. rewrite Hthis. simpl. apply lookup_empty. }
    rewrite Hthis in Hsize, Hqueue, Hkeys. simpl in Hsize, Hqueue, Hkeys.
    rewrite map_size_empty in Hsize.
    unfold getRunningCount, getQueuedCount, isAgentRunning.
    split; [lia|]. split.
    { rewrite <- (length_fmap request), Hqueue, length_drop. lia. }
    split; [|done].
    intros r Hr. apply has_is_Some, Hkeys. right.
    apply list_elem_of_fmap. exists r.1. split; [done|].
    apply list_elem_of_fmap. by exists r.
Qed.

Lemma enqueue_runs_or_queues_witness :
  getRunningCount (this (exec (enqueue_all abc) (fresh (Some 2)))) = 2%nat
  ∧ getQueuedCount (this (exec (enqueue_all abc) (fresh (Some 2)))) = 1%nat
  ∧ request <$> queuedAgents (this (exec (enqueue_all abc) (fresh (Some 2)))) =
      [("agent-3", "debugger", "test3")].
Proof.
  destruct (enqueue_runs_or_queues (fresh (Some 2)) "agent-1" "researcher" "test1"
              2 1 clock0 (fresh (Some 2)) abc)
    as (_ & Hrun & Hqueued & _ & Hwait).
  - lia.
  - lia.
  - reflexivity.
  - apply (bool_decide_unpack _). vm_compute. exact I.
  - reflexivity.
  - split; [exact Hrun|]. split; [exact Hqueued | exact Hwait].
Defined.

(** * C4: the constructor does not validate *)

(** C4 as stated fails: [new AgentQueueManager(0)] returns an object, with
    capacity 0; it does not throw. *)
Lemma constructor_zero_returns :
  constructor (Some 0) =
    Normal {| maxConcurrent := 0; runningAgents := ∅; queuedAgents := [];
              onSpawnCallback := None |}
  ∧ ¬ ∃ e, constructor (Some 0) = Throw e.
Proof. split; [reflexivity|]. by intros [e He]. Qed.

(** C4, amended.  Constructing the queue with [maxConcurrent] zero or
    negative does not fail: the value is stored as given, neither replaced
    by a default nor treated as no limit.  A queue so constructed never
    runs anything: after any calls its running count is 0 and every
    [enqueueAgent] is answered ['queued']. *)
Theorem nonpositive_capacity_runs_nothing (m : Z) (w : World) (id type prompt : string) :
  m ≤ 0 → reachable (Some m) w →
  constructor (Some m) =
    Normal {| maxConcurrent := m; runningAgents := ∅; queuedAgents := [];
              onSpawnCallback := None |}
  ∧ maxConcurrent (this w) = m
  ∧ getRunningCount (this w) = 0%nat
  ∧ fst (enqueueAgent id type prompt w) = Normal queued
  ∧ getRunningCount (this (snd (enqueueAgent id type prompt w))) = 0%nat.
Proof.
  intros Hm Hw.
  pose proof (reachable_maxConcurrent _ _ Hw) as Hmax. simpl in Hmax.
  pose proof (reachable_capped _ _ Hw) as Hcap. unfold capped in Hcap.
  assert (size (runningAgents (this w)) = 0%nat) as Hsize by lia.
  split; [done|]. split; [done|]. split; [done|].
  rewrite enqueueAgent_queued by lia. by split.
Qed.

Lemma nonpositive_capacity_runs_nothing_witness :
  getRunningCount (this (exec (enqueue_all abc) (fresh (Some (-3))))) = 0%nat
  ∧ fst (enqueueAgent "agent-4" "coder" "test4"
           (exec (enqueue_all abc) (fresh (Some (-3))))) = Normal queued.
Proof.
  destruct (nonpositive_capacity_runs_nothing (-3)
              (exec (enqueue_all abc) (fresh (Some (-3))))
              "agent-4" "coder" "test4")
    as (_ & _ & Hcount & Hanswer & _).
  - lia.
  - apply reachable_fresh_exec.
  - split; [exact Hcount | exact Hanswer].
Defined.

(** * C5: ids in the two collections *)

(** C5 as stated fails: the code has no duplicate check.  On a queue of
    capacity 1, enqueuing ["agent-1"] twice leaves it running and waiting
    at once. *)
Lemma duplicate_id_running_and_waiting :
  reachable (Some 1)
    (exec [Enqueue "agent-1" "researcher" "test1";
           Enqueue "agent-1" "researcher" "test1"] (fresh (Some 1)))
  ∧ isAgentRunning "agent-1"
      (this (exec [Enqueue "agent-1" "researcher" "test1";
                   Enqueue "agent-1" "researcher" "test1"] (fresh (Some 1)))) = true
  ∧ waiting_ids
      (exec [Enqueue "agent-1" "researcher" "test1";
             Enqueue "agent-1" "researcher" "test1"] (fresh (Some 1))) = ["agent-1"]
  ∧ ¬ ids_unique
      (exec [Enqueue "agent-1" "researcher" "test1";
             Enqueue "agent-1" "researcher" "test1"] (fresh (Some 1))).
Proof.
  split; [apply reachable_fresh_exec|]. split; [reflexivity|].
  split; [reflexivity|].
  intros (_ & _ & Hdisjoint).
  specialize (Hdisjoint "agent-1" (list_elem_of_here _ _)).
  vm_compute in Hdisjoint. discriminate.
Qed.

Lemma step_ids_unique w c r w' :
  step w c r w' →
  (∀ id type prompt, c = Enqueue id type prompt → ¬ known id w) →
  ids_unique w → ids_unique w'.
Proof.
  unfold ids_unique, known, waiting_ids.
  intros Hs Hnew (Hnd & _ & Hdisjoint).
  split; [|split; [apply NoDup_fst_map_to_list|]]; revert Hnew;
    destruct Hs as [cb | id ty p Hfree | id ty p Hfull | id Hid
                   | id agent Hid _ | id agent t rest Hid Hq Hfree];
    simpl; intros Hnew; try done.
  - rewrite fmap_app. apply NoDup_app. split; [done|]. split.
    + intros i Hi [->|[]%elem_of_nil]%elem_of_cons.
      apply (Hnew _ _ _ eq_refl). by right.
    + apply NoDup_singleton.
  - rewrite Hq in Hnd. by apply NoDup_cons in Hnd as [_ ?].
  - intros i Hi. rewrite lookup_insert_ne; [by apply Hdisjoint|].
    intros ->. apply (Hnew _ _ _ eq_refl). by right.
  - intros i. rewrite fmap_app, elem_of_app.
    intros [Hi | [->|[]%elem_of_nil]%elem_of_cons]; [by apply Hdisjoint|].
    apply eq_None_not_Some. intros Hrun. apply (Hnew _ _ _ eq_refl). by left.
  - intros i Hi. apply lookup_delete_None. right. by apply Hdisjoint.
  - rewrite Hq in Hnd, Hdisjoint. simpl in Hnd, Hdisjoint.
    apply NoDup_cons in Hnd as [Hhead _].
    intros i Hi. rewrite lookup_insert_ne; [|by intros <-].
    apply lookup_delete_None. right. apply Hdisjoint. by right.
Qed.

(** C5, amended.  In every state reached by calls in which each
    [enqueueAgent] is given an id not known to the queue at that moment
    (neither waiting nor running), no id is both waiting and running, and
    no id occurs twice in the waiting list or in the running set. *)
Theorem distinct_ids_stay_unique (m : option Z) (w : World) :
  reachable_distinct m w → ids_unique w.
Proof.
  induction 1 as [clk w Hboot | c w _ IH Hnew].
  - apply boot_this in Hboot as (Hthis & _).
    unfold ids_unique, waiting_ids. rewrite Hthis. simpl.
    split; [constructor|]. split; [apply NoDup_fst_map_to_list|].
    by intros i ?%elem_of_nil.
  - destruct (call_snd_step c w) as [r Hs]. by eapply step_ids_unique.
Qed.

Lemma distinct_ids_stay_unique_witness :
  ids_unique (snd (call (Enqueue "agent-2" "coder" "test2")
                     (snd (call (Enqueue "agent-1" "researcher" "test1")
                             (fresh (Some 1)))))).
Proof.
  apply (distinct_ids_stay_unique (Some 1)).
  apply distinct_call; [apply distinct_call; [apply (distinct_boot _ clock0), boot_fresh|]|].
  - intros id ty p [= <- _ _] [[a Ha] | Hw].
    + vm_compute in Ha. discriminate.
    + by apply elem_of_nil in Hw.
  - intros id ty p [= <- _ _] [[a Ha] | Hw].
    + vm_compute in Ha. discriminate.
    + by apply elem_of_nil in Hw.
Defined.

(** * C6: completing an id that is not running *)

(** C6.  In any state, [markAgentComplete(id)] for an id that is not in the
    running set returns normally and leaves the object as it was, so
    neither count changes; its only trace is the warning. *)
Theorem complete_unknown_is_noop (w : World) (id : string) :
  isAgentRunning id (this w) = false →
  fst (markAgentComplete id w) = Normal tt
  ∧ this (snd (markAgentComplete id w)) = this w
  ∧ getRunningCount (this (snd (markAgentComplete id w))) = getRunningCount (this w)
  ∧ getQueuedCount (this (snd (markAgentComplete id w))) = getQueuedCount (this w)
  ∧ trace (snd (markAgentComplete id w)) = trace w ++ [Warn (MsgNotRunning id)].
Proof.
  intros Hid. apply has_false in Hid.
  by rewrite markAgentComplete_unknown.
Qed.

Lemma complete_unknown_is_noop_witness :
  isAgentRunning "agent-9" (this (exec (enqueue_all abc) (fresh (Some 2)))) = false
  ∧ this (snd (markAgentComplete "agent-9" (exec (enqueue_all abc) (fresh (Some 2))))) =
    this (exec (enqueue_all abc) (fresh (Some 2))).
Proof.
  split; [reflexivity|].
  apply (complete_unknown_is_noop (exec (enqueue_all abc) (fresh (Some 2))) "agent-9").
  reflexivity.
Defined.

(** * C7: one promotion per completion *)

(** Without a waiting task, completions only empty the running set. *)
Lemma complete_all_idle (ids : list string) (w : World) :
  queuedAgents (this w) = [] →
  (∀ i, is_Some (runningAgents (this w) !! i) → i ∈ ids) →
  runningAgents (this (exec (Complete <$> ids) w)) = ∅
  ∧ queuedAgents (this (exec (Complete <$> ids) w)) = []
  ∧ invoked (trace (exec (Complete <$> ids) w)) = invoked (trace w).
Proof.
  revert w. induction ids as [|id ids IH]; intros w Hq Hall.
  { simpl. split; [|done]. apply map_empty. intros i.
    apply eq_None_not_Some. by intros ?%Hall%elem_of_nil. }
  rewrite fmap_cons, exec_cons.
  destruct (call_step (Complete id) w) as (r & w' & Heq & Hs).
  rewrite Heq. cbn [snd]. clear Heq.
  assert (queuedAgents (this w') = []
          ∧ invoked (trace w') = invoked (trace w)
          ∧ ∀ i, is_Some (runningAgents (this w') !! i) →
                 i ≠ id ∧ is_Some (runningAgents (this w) !! i))
    as (Hq' & Htr' & Hrun').
  { inversion Hs; subst; simpl.
    - split; [done|]. split; [rewrite invoked_app; apply app_nil_r|].
      intros i Hi. split; [|done]. intros ->. rewrite H0 in Hi. by destruct Hi.
    - split; [done|]. split; [rewrite invoked_app; apply app_nil_r|].
      intros i Hi. apply lookup_delete_is_Some in Hi as [Hne Hi].
      split; [by intros -> | done].
    - congruence. }
  destruct (IH w') as (Hempty & Hnil & Htr); [done | |].
  - intros i Hi. destruct (Hrun' i Hi) as [Hne Hw].
    apply Hall in Hw. by apply elem_of_cons in Hw as [->|].
  - by rewrite Htr.
Qed.

(** C7.  In a reachable state, [markAgentComplete] on a running id frees
    its slot and promotes exactly the head of the waiting list when there
    is one, whatever else waits and however many slots are free: the
    waiting list loses its head only, and the callback is invoked once at
    most.  When nothing waits, nothing is promoted.  Completing all the
    running agents of a queue whose waiting list is empty leaves the
    running count at 0 and invokes no callback. *)
Theorem one_promotion_per_completion
    (m : option Z) (w : World) (id : string) (agent : RunningAgent.t)
    (w2 : World) (ids : list string) :
  reachable m w →
  runningAgents (this w) !! id = Some agent →
  queuedAgents (this w2) = [] →
  (map_to_list (runningAgents (this w2))).*1 ⊆ ids →
  match queuedAgents (this w) with
  | [] =>
      queuedAgents (this (snd (markAgentComplete id w))) = []
      ∧ runningAgents (this (snd (markAgentComplete id w))) =
          delete id (runningAgents (this w))
      ∧ invoked (trace (snd (markAgentComplete id w))) = invoked (trace w)
  | nextTask :: rest =>
      queuedAgents (this (snd (markAgentComplete id w))) = rest
      ∧ runningAgents (this (snd (markAgentComplete id w))) =
          <[AgentTask.id nextTask :=
              RunningAgent.mk (AgentTask.id nextTask) (AgentTask.type nextTask)
                (clock w (S (S (ticks w))))]> (delete id (runningAgents (this w)))
      ∧ invoked (trace (snd (markAgentComplete id w))) =
          invoked (trace w) ++
          match onSpawnCallback (this w) with Some _ => [nextTask] | None => [] end
  end
  ∧ getRunningCount (this (exec (Complete <$> ids) w2)) = 0%nat
  ∧ invoked (trace (exec (Complete <$> ids) w2)) = invoked (trace w2).
Proof.
  intros Hw Hid Hq2 Hall. split.
  - destruct (markAgentComplete_step id w) as (w' & Heq & Hs).
    rewrite Heq. cbn [snd]. clear Heq.
    pose proof (capped_delete_free _ _ _ (reachable_capped _ _ Hw) Hid) as Hfree.
    destruct (queuedAgents (this w)) as [|nextTask rest] eqn:Hq.
    + inversion Hs; subst; simpl; try congruence.
      split; [done|]. split; [done|]. rewrite invoked_app. apply app_nil_r.
    + destruct (step_complete_promote_inv _ _ _ _ _ _ _ Hs Hid Hq Hfree)
        as (Hq' & Hr' & logs & Hlogs & Htr).
      split; [done|]. split; [done|].
      by rewrite Htr, !invoked_app, Hlogs, invoked_invocation.
  - destruct (complete_all_idle ids w2) as (Hempty & _ & Htr); [done | |].
    + intros i [a Hi]. apply Hall.
      apply list_elem_of_fmap. exists (i, a). split; [done|].
      by apply elem_of_map_to_list.
    + unfold getRunningCount. by rewrite Hempty, map_size_empty.
Qed.

Lemma one_promotion_per_completion_witness :
  request <$> queuedAgents
    (this (snd (markAgentComplete "agent-1"
                  (exec (enqueue_all abc ++ [Enqueue "agent-4" "coder" "test4"])
                     (fresh (Some 2)))))) = [("agent-4", "coder", "test4")]
  ∧ getRunningCount
      (this (exec (Complete <$> ["agent-2"; "agent-1"])
               (exec (enqueue_all (take 2 abc)) (fresh (Some 2))))) = 0%nat.
Proof.
  destruct (one_promotion_per_completion (Some 2)
              (exec (enqueue_all abc ++ [Enqueue "agent-4" "coder" "test4"])
                 (fresh (Some 2)))
              "agent-1" (RunningAgent.mk "agent-1" "researcher" 1001)
              (exec (enqueue_all (take 2 abc)) (fresh (Some 2)))
              ["agent-2"; "agent-1"])
    as (Hone & Hzero & _).
  - apply reachable_fresh_exec.
  - reflexivity.
  - reflexivity.
  - apply (bool_decide_unpack _). vm_compute. exact I.
  - split; [|exact Hzero].
    change (queuedAgents
              (this (exec (enqueue_all abc ++ [Enqueue "agent-4" "coder" "test4"])
                       (fresh (Some 2)))))
      with [AgentTask.mk "agent-3" "debugger" "test3" 1004;
            AgentTask.mk "agent-4" "coder" "test4" 1005] in Hone.
    destruct Hone as (-> & _). reflexivity.
Defined.

(** * C8: [isAgentRunning] after the two calls *)

(** C8.  [isAgentRunning(id)] is true right after an [enqueueAgent] for
    that id that answered ['running'], and false right after
    [markAgentComplete(id)] (which returns normally) on an id that was
    running and is not in the waiting list under the same id. *)
Theorem is_running_after_calls (w w2 : World) (id type prompt : string) :
  fst (enqueueAgent id type prompt w) = Normal running →
  isAgentRunning id (this w2) = true →
  id ∉ waiting_ids w2 →
  isAgentRunning id (this (snd (enqueueAgent id type prompt w))) = true
  ∧ fst (markAgentComplete id w2) = Normal tt
  ∧ isAgentRunning id (this (snd (markAgentComplete id w2))) = false.
Proof.
  intros Hanswer Hrun Hnotwaiting. split.
  - destruct (enqueueAgent_step id type prompt w) as (a & w' & Heq & Hs).
    rewrite Heq in *. cbn [fst snd] in *. injection Hanswer as ->.
    apply step_enqueue_inv in Hs as [(_ & _ & Hr & _) | (_ & [=] & _)].
    apply has_is_Some. rewrite Hr, lookup_insert_eq. by eexists.
  - destruct (markAgentComplete_step id w2) as (w' & Heq & Hs).
    rewrite Heq. cbn [fst snd]. split; [done|].
    apply has_is_Some in Hrun as [agent Hid].
    apply has_false. inversion Hs; subst; simpl.
    + congruence.
    + apply lookup_delete_eq.
    + rewrite lookup_insert_ne; [apply lookup_delete_eq|].
      intros Hsame. apply Hnotwaiting. unfold waiting_ids.
      rewrite H1, <- Hsame. simpl. left.
Qed.

Lemma is_running_after_calls_witness :
  isAgentRunning "agent-1"
    (this (snd (enqueueAgent "agent-1" "researcher" "test1" (fresh (Some 2))))) = true
  ∧ isAgentRunning "agent-1"
      (this (snd (markAgentComplete "agent-1"
                    (exec (enqueue_all abc) (fresh (Some 2)))))) = false.
Proof.
  destruct (is_running_after_calls (fresh (Some 2))
              (exec (enqueue_all abc) (fresh (Some 2)))
              "agent-1" "researcher" "test1")
    as (Hafter & _ & Hgone).
  - reflexivity.
  - reflexivity.
  - apply (bool_decide_unpack _). vm_compute. exact I.
  - split; [exact Hafter | exact Hgone].
Defined.

(** * C9: no backfill on the early return *)

(** C9.  [markAgentComplete(id)] for an id that is not running promotes
    nothing: the waiting list and the running set are as before, no
    callback is invoked and the clock is not even read, because the method
    returns before it reaches [spawnNextQueued].  This holds also when a
    task waits and a slot is free, where [spawnNextQueued], had it been
    reached, would have taken the head of the waiting list. *)
Theorem complete_unknown_never_promotes (w : World) (id : string) :
  isAgentRunning id (this w) = false →
  queuedAgents (this (snd (markAgentComplete id w))) = queuedAgents (this w)
  ∧ runningAgents (this (snd (markAgentComplete id w))) = runningAgents (this w)
  ∧ invoked (trace (snd (markAgentComplete id w))) = invoked (trace w)
  ∧ ticks (snd (markAgentComplete id w)) = ticks w
  ∧ ∀ nextTask rest,
      queuedAgents (this w) = nextTask :: rest →
      Z.of_nat (getRunningCount (this w)) < maxConcurrent (this w) →
      queuedAgents (this (snd (spawnNextQueued w))) = rest
      ∧ isAgentRunning (AgentTask.id nextTask) (this (snd (spawnNextQueued w))) = true.
Proof.
  intros Hid. apply has_false in Hid.
  rewrite markAgentComplete_unknown by done. simpl.
  split; [done|]. split; [done|]. split; [rewrite invoked_app; apply app_nil_r|].
  split; [done|].
  intros nextTask rest Hq Hfree.
  rewrite (spawnNextQueued_promote _ nextTask rest), startAgent_eq by done.
  split; [done|].
  apply has_is_Some. cbn [snd this runningAgents with_running with_queued].
  rewrite lookup_insert_eq. by eexists.
Qed.

Lemma complete_unknown_never_promotes_witness :
  Z.of_nat (getRunningCount (this (exec free_slot_script (fresh (Some 2))))) < 2
  ∧ request <$> queuedAgents
      (this (snd (markAgentComplete "agent-9" (exec free_slot_script (fresh (Some 2)))))) =
    [("agent-3", "debugger", "test3")]
  ∧ getRunningCount
      (this (snd (markAgentComplete "agent-9" (exec free_slot_script (fresh (Some 2)))))) =
    1%nat.
Proof.
  destruct (complete_unknown_never_promotes
              (exec free_slot_script (fresh (Some 2))) "agent-9")
    as (Hq & Hr & _).
  - reflexivity.
  - unfold getRunningCount. rewrite Hq, Hr.
    split; [by vm_compute|]. split; reflexivity.
Defined.

(** * C10: the default capacity *)

(** C10.  [new AgentQueueManager()] yields an empty queue of capacity 2,
    which works as one: of 2 + k requests with distinct ids, 2 run and k
    wait.  A supplied capacity is stored as it is, whatever its sign. *)
Theorem constructor_default_and_unchecked
    (m : Z) (clk : nat → Z) (w0 : World) (k : nat)
    (requests : list (string * string * string)) :
  boot None clk = Normal w0 →
  NoDup (requests.*1.*1) →
  length requests = (2 + k)%nat →
  constructor None =
    Normal {| maxConcurrent := 2; runningAgents := ∅; queuedAgents := [];
              onSpawnCallback := None |}
  ∧ constructor (Some m) =
      Normal {| maxConcurrent := m; runningAgents := ∅; queuedAgents := [];
                onSpawnCallback := None |}
  ∧ getStatus (this w0) = {| st_running := 0; st_queued := 0; st_max := 2 |}
  ∧ getStatus (this (exec (enqueue_all requests) w0)) =
      {| st_running := 2; st_queued := k; st_max := 2 |}.
Proof.
  intros Hboot Hnd Hlen.
  assert (reachable None (exec (enqueue_all requests) w0)) as Hreach
    by (apply reachable_exec; by apply (reachable_boot _ clk)).
  apply reachable_maxConcurrent in Hreach. simpl in Hreach.
  apply boot_this in Hboot as (Hthis & _).
  split; [done|]. split; [done|]. split; [by rewrite Hthis|].
  destruct (enqueue_all_fresh requests w0 2) as (Hsize & Hqueue & _).
  { rewrite Hthis. simpl. by rewrite map_size_empty. }
  { done. }
  { intros i _. rewrite Hthis. apply lookup_empty. }
  rewrite Hthis in Hsize, Hqueue. simpl in Hsize, Hqueue.
  rewrite map_size_empty in Hsize.
  unfold getStatus.
  rewrite Hreach, Hsize, <- (length_fmap request), Hqueue, length_drop, Hlen.
  f_equal; lia.
Qed.

Lemma constructor_default_and_unchecked_witness :
  getStatus (this (exec (enqueue_all abc) (fresh None))) =
    {| st_running := 2; st_queued := 1; st_max := 2 |}.
Proof.
  apply (constructor_default_and_unchecked 0 clock0 (fresh None) 1 abc).
  - reflexivity.
  - apply (bool_decide_unpack _). vm_compute. exact I.
  - reflexivity.
Defined.

(** * Further properties of the class *)

(** * Callback registration *)

Lemma invocation_elem e cb task :
  e ∈ invocation cb task → ∃ cb', cb = Some cb' ∧ e = Invoke cb' task.
Proof.
  destruct cb as [cb'|]; simpl.
  - intros ->%list_elem_of_singleton. by exists cb'.
  - by intros ?%elem_of_nil.
Qed.

(** What a call adds to the trace: callback invocations go to the callback
    registered when the call is made. *)
Lemma step_trace w c r w' :
  step w c r w' →
  ∃ evs, trace w' = trace w ++ evs
    ∧ ∀ cb task, Invoke cb task ∈ evs → onSpawnCallback (this w) = Some cb.
Proof.
  destruct 1 as [cb | id ty p Hfree | id ty p Hfull | id Hid
                | id agent Hid _ | id agent t rest Hid Hq Hfree];
    unfold trace at 1; (eexists; split; [try reflexivity|]).
  - by rewrite app_nil_r.
  - by intros cb' task ?%elem_of_nil.
  - intros cb task [[=] | Hin]%elem_of_cons.
    apply invocation_elem in Hin as (cb' & -> & [= -> _]). done.
  - intros cb task [[=] | []%elem_of_nil]%elem_of_cons.
  - intros cb task [[=] | []%elem_of_nil]%elem_of_cons.
  - intros cb task [[=] | []%elem_of_nil]%elem_of_cons.
  - intros cb task [Hlogs | Hin]%elem_of_app.
    + repeat (apply elem_of_cons in Hlogs as [[=] | Hlogs]).
      by apply elem_of_nil in Hlogs.
    + apply invocation_elem in Hin as (cb' & -> & [= -> _]). done.
Qed.


Lemma invoked_nil_iff tr :
  invoked tr = [] ↔ ∀ cb task, Invoke cb task ∉ tr.
Proof.
  induction tr as [|e tr IH]; simpl.
  - split; [|done]. intros _ cb task. apply not_elem_of_nil.
  - destruct e as [m | m | cb task]; simpl.
    + rewrite IH. split.
      * intros H cb task [[=]|?]%elem_of_cons. by eapply H.
      * intros H cb task Hin. eapply H. by right.
    + rewrite IH. split.
      * intros H cb task [[=]|?]%elem_of_cons. by eapply H.
      * intros H cb task Hin. eapply H. by right.
    + split; [done|]. intros H. destruct (H cb task). left.
Qed.

(** Without a registered callback, a call invokes nothing, and only
    [setSpawnCallback] registers one. *)
Lemma step_unregistered w c r w' :
  step w c r w' →
  onSpawnCallback (this w) = None →
  invoked (trace w') = invoked (trace w)
  ∧ ((∀ cb, c ≠ SetSpawnCallback cb) → onSpawnCallback (this w') = None).
Proof.
  intros Hs Hnone. split.
  - destruct (step_trace _ _ _ _ Hs) as (evs & -> & Hinv).
    rewrite invoked_app.
    assert (invoked evs = []) as ->; [|by rewrite app_nil_r].
    apply invoked_nil_iff. intros cb task Hin%Hinv. congruence.
  - intros Hc. destruct Hs; simpl; try done. by destruct (Hc cb).
Qed.

(** X2.  On a queue where no callback has been registered, agents start
    and are promoted without any invocation; registering a callback later
    invokes nothing either, so the agents already started are never handed
    to it. *)
Theorem no_callback_no_invocation
    (m : option Z) (clk : nat → Z) (w0 : World) (cs : list Call) (cb : Callback) :
  boot m clk = Normal w0 →
  (∀ cb', SetSpawnCallback cb' ∉ cs) →
  invoked (trace (exec cs w0)) = []
  ∧ invoked (trace (exec (cs ++ [SetSpawnCallback cb]) w0)) = []
  ∧ runningAgents (this (exec (cs ++ [SetSpawnCallback cb]) w0)) =
      runningAgents (this (exec cs w0)).
Proof.
  intros Hboot Hcs.
  assert (invoked (trace (exec cs w0)) = []
          ∧ onSpawnCallback (this (exec cs w0)) = None) as [Hinv Hnone].
  { apply boot_this in Hboot as (Hthis & Htr & _).
    induction cs as [|c cs IH] using rev_ind.
    - simpl. by rewrite Hthis, Htr.
    - rewrite exec_snoc.
      destruct IH as [IHinv IHnone].
      { intros cb' Hin. apply (Hcs cb'), elem_of_app. by left. }
      destruct (call_snd_step c (exec cs w0)) as [r Hs].
      destruct (step_unregistered _ _ _ _ Hs IHnone) as [Hsame Hstill].
      split; [by rewrite Hsame|]. apply Hstill.
      intros cb' ->. apply (Hcs cb'), elem_of_app. right. left. }
  split; [done|]. rewrite exec_snoc. by split.
Qed.

(** * Completing a running agent *)

(** What [markAgentComplete] does to a running id once the capacity bound
    holds: the slot it frees takes the head of the waiting list, if any. *)
Lemma step_complete_running w id r w' agent :
  step w (Complete id) r w' →
  runningAgents (this w) !! id = Some agent →
  capped w →
  onSpawnCallback (this w') = onSpawnCallback (this w)
  ∧ queuedAgents (this w') = drop 1 (queuedAgents (this w))
  ∧ runningAgents (this w') =
      match queuedAgents (this w) with
      | [] => delete id (runningAgents (this w))
      | nextTask :: _ =>
          <[AgentTask.id nextTask :=
              RunningAgent.mk (AgentTask.id nextTask) (AgentTask.type nextTask)
                (clock w (S (S (ticks w))))]> (delete id (runningAgents (this w)))
      end
  ∧ invoked (trace w') =
      invoked (trace w) ++
      match onSpawnCallback (this w) with
      | Some _ => take 1 (queuedAgents (this w))
      | None => []
      end.
Proof.
  intros Hs Hid Hcap.
  pose proof (capped_delete_free _ _ _ Hcap Hid) as Hfree.
  inversion Hs as [| | | ? Hnone | ? ? Hsome Hidle | ? ? t rest Hsome Hq Hslot];
    subst; simpl.
  - congruence.
  - destruct Hidle as [Hq | Hfull]; [|lia]. rewrite Hq.
    split; [done|]. split; [done|]. split; [done|].
    rewrite invoked_app. simpl. by destruct (onSpawnCallback (this w)).
  - rewrite Hq. split; [done|]. split; [done|]. split; [done|].
    rewrite invoked_app. simpl.
    by destruct (onSpawnCallback (this w)).
Qed.

(** * Distinct ids *)

(** With ids that are never known twice, a task waits only while every
    slot is taken. *)
Lemma reachable_distinct_inv m w :
  reachable_distinct m w →
  reachable m w
  ∧ ids_unique w
  ∧ (queuedAgents (this w) ≠ [] →
     maxConcurrent (this w) ≤ Z.of_nat (size (runningAgents (this w)))).
Proof.
  induction 1 as [clk w Hboot | c w _ (Hreach & Huniq & Hbusy) Hnew].
  - split; [by apply (reachable_boot _ clk)|].
    apply boot_this in Hboot as (Hthis & _).
    unfold ids_unique, waiting_ids. rewrite Hthis. simpl.
    split; [|done].
    split; [constructor|]. split; [apply NoDup_fst_map_to_list|].
    by intros i ?%elem_of_nil.
  - split; [by constructor|].
    destruct (call_snd_step c w) as [r Hs].
    split; [by eapply step_ids_unique|].
    destruct Huniq as (Hnd & _ & Hdisjoint). unfold waiting_ids in *.
    destruct Hs as [cb | id ty p Hfree | id ty p Hfull | id Hid
                   | id agent Hid Hidle | id agent t rest Hid Hq Hfree];
      simpl; try done.
    + intros Hq. apply Hbusy in Hq. lia.
    + destruct Hidle as [-> | Hfull]; done.
    + intros _. rewrite map_size_insert_None.
      * rewrite (size_delete_running _ _ _ Hid). apply Hbusy. by rewrite Hq.
      * apply lookup_delete_None. right. apply Hdisjoint. rewrite Hq. left.
Qed.

(** X3.  As long as the caller never enqueues an id the queue already
    knows, no slot idles while a task waits: whenever the waiting list is
    not empty, the running set holds exactly [maxConcurrent] agents (none,
    if the capacity is not positive). *)
Theorem no_idle_slot_while_waiting (m : option Z) (w : World) :
  reachable_distinct m w →
  st_queued (getStatus (this w)) ≠ 0%nat →
  Z.of_nat (st_running (getStatus (this w))) = Z.max 0 (st_max (getStatus (this w))).
Proof.
  intros (Hreach & _ & Hbusy)%reachable_distinct_inv Hq. simpl in *.
  pose proof (reachable_capped _ _ Hreach) as Hcap. unfold capped in Hcap.
  assert (queuedAgents (this w) ≠ []) as Hne by (by intros Heq; rewrite Heq in Hq).
  apply Hbusy in Hne. lia.
Qed.

(** X4.  With such ids, completing a running agent while a task waits
    leaves the running count as it was and shortens the waiting list by
    one; when nothing waits the running count drops by one. *)
Theorem completion_backfills (m : option Z) (w : World) (id : string) :
  reachable_distinct m w →
  isAgentRunning id (this w) = true →
  getRunningCount (this (snd (markAgentComplete id w))) =
    match queuedAgents (this w) with
    | [] => pred (getRunningCount (this w))
    | _ :: _ => getRunningCount (this w)
    end
  ∧ getQueuedCount (this (snd (markAgentComplete id w))) =
      pred (getQueuedCount (this w)).
Proof.
  intros (Hreach & (_ & _ & Hdisjoint) & _)%reachable_distinct_inv Hrun.
  apply has_is_Some in Hrun as [agent Hid].
  destruct (markAgentComplete_step id w) as (w' & -> & Hs). cbn [snd].
  destruct (step_complete_running _ _ _ _ _ Hs Hid (reachable_capped _ _ Hreach))
    as (_ & Hq' & Hr' & _).
  unfold getRunningCount, getQueuedCount. rewrite Hq', Hr', length_drop.
  split; [|lia].
  pose proof (size_delete_running _ _ _ Hid) as Hsize.
  destruct (queuedAgents (this w)) as [|t rest] eqn:Hq; [lia|].
  rewrite map_size_insert_None; [lia|].
  apply lookup_delete_None. right. apply Hdisjoint.
  unfold waiting_ids. rewrite Hq. left.
Qed.

(** X5.  Completions of running agents serve the waiting list from its
    head, one task each: after a run of them the waiting list has lost
    that many tasks from the front, and a registered callback has been
    handed exactly those, in their order in the list. *)
Theorem completions_drain_in_order (m : option Z) (w : World) (ids : list string) :
  reachable m w →
  all_running ids w →
  queuedAgents (this (exec (Complete <$> ids) w)) =
    drop (length ids) (queuedAgents (this w))
  ∧ invoked (trace (exec (Complete <$> ids) w)) =
      invoked (trace w) ++
      match onSpawnCallback (this w) with
      | Some _ => take (length ids) (queuedAgents (this w))
      | None => []
      end.
Proof.
  revert w. induction ids as [|id ids IH]; intros w Hreach Hall.
  { simpl. rewrite drop_0, take_0. split; [done|].
    destruct (onSpawnCallback (this w)); by rewrite app_nil_r. }
  destruct Hall as [Hrun Hall].
  apply has_is_Some in Hrun as [agent Hid].
  rewrite fmap_cons, exec_cons.
  destruct (IH (snd (call (Complete id) w))) as [Hq Htr];
    [by constructor | done |].
  destruct (call_snd_step (Complete id) w) as [r Hs].
  destruct (step_complete_running _ _ _ _ _ Hs Hid (reachable_capped _ _ Hreach))
    as (Hcb' & Hq' & _ & Htr').
  rewrite Hq, Htr, Hq', Htr', Hcb', drop_drop. split; [done|].
  rewrite <- app_assoc. f_equal.
  destruct (onSpawnCallback (this w)); [|done].
  change (length (id :: ids)) with (1 + length ids)%nat.
  by rewrite <- take_take_drop.
Qed.

(** * Where the ids in the queue come from, and where they go *)

(** A call forgets an id only by completing it. *)
Lemma step_known w c r w' id :
  step w c r w' → known id w → known id w' ∨ c = Complete id.
Proof.
  unfold known, waiting_ids.
  destruct 1 as [cb | id' ty p Hfree | id' ty p Hfull | id' Hid
                | id' agent Hid _ | id' agent t rest Hid Hq Hfree];
    simpl; intros Hknown; try (by left).
  - left. destruct Hknown as [Hrun | Hwait]; [left | by right].
    apply lookup_insert_is_Some'. by right.
  - left. destruct Hknown as [Hrun | Hwait]; [by left | right].
    rewrite fmap_app. apply elem_of_app. by left.
  - destruct (decide (id' = id)) as [-> | Hne]; [by right | left].
    destruct Hknown as [Hrun | Hwait]; [left | by right].
    by rewrite lookup_delete_ne.
  - destruct (decide (id' = id)) as [-> | Hne]; [by right | left].
    destruct (decide (AgentTask.id t = id)) as [<- | Hnext].
    { left. rewrite lookup_insert_eq. by eexists. }
    destruct Hknown as [Hrun | Hwait]; [left | right].
    + by rewrite lookup_insert_ne, lookup_delete_ne.
    + rewrite Hq in Hwait. simpl in Hwait.
      by apply elem_of_cons in Hwait as [? | ?].
Qed.

(** [enqueueAgent] makes its id known. *)
Lemma step_enqueue_known w id type prompt r w' :
  step w (Enqueue id type prompt) r w' → known id w'.
Proof.
  unfold known, waiting_ids.
  intros [(_ & _ & -> & _) | (_ & _ & _ & -> & _)]%step_enqueue_inv.
  - left. rewrite lookup_insert_eq. by eexists.
  - right. rewrite fmap_app. apply elem_of_app. right. simpl. left.
Qed.

(** X6.  No task is dropped: over any script of calls on a new queue, an
    id given to [enqueueAgent] stays known to the queue (running or
    waiting) unless the script calls [markAgentComplete] for it. *)
Theorem enqueued_ids_are_kept
    (m : option Z) (clk : nat → Z) (w0 : World) (cs : list Call)
    (id type prompt : string) :
  boot m clk = Normal w0 →
  Enqueue id type prompt ∈ cs →
  known id (exec cs w0) ∨ Complete id ∈ cs.
Proof.
  intros _. induction cs as [|c cs IH] using rev_ind; [by intros ?%elem_of_nil|].
  rewrite exec_snoc.
  destruct (call_snd_step c (exec cs w0)) as [r Hs].
  intros [Hbefore | Hlast]%elem_of_app.
  - destruct (IH Hbefore) as [Hknown | Hdone].
    + destruct (step_known _ _ _ _ id Hs Hknown) as [? | ->]; [by left | right].
      apply elem_of_app. right. left.
    + right. apply elem_of_app. by left.
  - apply list_elem_of_singleton in Hlast as <-.
    left. by eapply step_enqueue_known.
Qed.

Lemma step_from_script cs w c r w' :
  step w c r w' → from_script cs w → from_script (cs ++ [c]) w'.
Proof.
  intros Hs [Hwait Hrun].
  assert (∀ c', c' ∈ cs → c' ∈ cs ++ [c]) as Hmono
    by (intros c' ?; apply elem_of_app; by left).
  assert (c ∈ cs ++ [c]) as Hlast by (apply elem_of_app; right; left).
  assert (∀ id agent, runningAgents (this w) !! id = Some agent →
            RunningAgent.id agent = id
            ∧ ∃ prompt, Enqueue id (RunningAgent.type agent) prompt ∈ cs ++ [c])
    as Hrun'.
  { intros id agent Hid. destruct (Hrun id agent Hid) as (? & p & ?).
    split; [done|]. exists p. by apply Hmono. }
  split.
  - destruct Hs as [cb | id ty p Hfree | id ty p Hfull | id Hid
                   | id agent Hid _ | id agent t rest Hid Hq Hfree];
      simpl; intros task Htask; try (by apply Hmono, Hwait).
    + apply elem_of_app in Htask as [? | ->%list_elem_of_singleton];
        [by apply Hmono, Hwait | done].
    + apply Hmono, Hwait. rewrite Hq. by right.
  - destruct Hs as [cb | id ty p Hfree | id ty p Hfull | id Hid
                   | id agent Hid _ | id agent t rest Hid Hq Hfree];
      simpl; intros i a Hi; try (by apply Hrun').
    + apply lookup_insert_Some in Hi as [[<- <-] | [_ Hi]]; [|by apply Hrun'].
      split; [done|]. by exists p.
    + apply lookup_delete_Some in Hi as [_ Hi]. by apply Hrun'.
    + apply lookup_insert_Some in Hi as [[<- <-] | [_ Hi]].
      * split; [done|]. exists (AgentTask.prompt t).
        apply Hmono, Hwait. rewrite Hq. left.
      * apply lookup_delete_Some in Hi as [_ Hi]. by apply Hrun'.
Qed.

(** X7.  The queue holds nothing of its own making: over any script of
    calls on a new queue, each waiting task carries the id, type and
    prompt of an [enqueueAgent] call of the script, and each running entry
    is stored under its own id with the type given to an [enqueueAgent]
    call for that id. *)
Theorem queue_contents_come_from_enqueue
    (m : option Z) (clk : nat → Z) (w0 : World) (cs : list Call) :
  boot m clk = Normal w0 →
  (∀ task, task ∈ queuedAgents (this (exec cs w0)) →
     Enqueue (AgentTask.id task) (AgentTask.type task) (AgentTask.prompt task) ∈ cs)
  ∧ ∀ id agent, runningAgents (this (exec cs w0)) !! id = Some agent →
      RunningAgent.id agent = id
      ∧ ∃ prompt, Enqueue id (RunningAgent.type agent) prompt ∈ cs.
Proof.
  intros (Hthis & _)%boot_this.
  change (from_script cs (exec cs w0)).
  induction cs as [|c cs IH] using rev_ind.
  - unfold from_script. simpl. rewrite Hthis. simpl. split.
    + by intros task ?%elem_of_nil.
    + intros id agent Hid. by rewrite lookup_empty in Hid.
  - rewrite exec_snoc.
    destruct (call_snd_step c (exec cs w0)) as [r Hs].
    by eapply step_from_script.
Qed.

(** * Running agents and the callback *)

Lemma elem_of_invoked task tr :
  task ∈ invoked tr ↔ ∃ cb, Invoke cb task ∈ tr.
Proof.
  unfold invoked. rewrite list_elem_of_omap. split.
  - intros ([m | m | cb task'] & Hin & [= <-]). by exists cb.
  - intros [cb Hin]. by exists (Invoke cb task).
Qed.

Lemma step_announced w c r w' :
  step w c r w' →
  is_Some (onSpawnCallback (this w)) →
  announced w →
  is_Some (onSpawnCallback (this w')) ∧ announced w'.
Proof.
  intros Hs [cb0 Hcb] Hann.
  assert (∀ evs id agent, runningAgents (this w) !! id = Some agent →
            ∃ task, task ∈ invoked (trace w ++ evs)
              ∧ AgentTask.id task = id
              ∧ AgentTask.type task = RunningAgent.type agent) as Hold.
  { intros evs id agent Hid. destruct (Hann id agent Hid) as (task & ? & ?).
    exists task. split; [|done]. rewrite invoked_app. apply elem_of_app. by left. }
  unfold announced.
  destruct Hs as [cb | id ty p Hfree | id ty p Hfull | id Hid
                 | id agent Hid _ | id agent t rest Hid Hq Hfree];
    simpl; (split; [by rewrite ?Hcb|]); try done; intros i a Hi.
  - apply lookup_insert_Some in Hi as [[<- <-] | [_ Hi]]; [|by apply Hold].
    exists (AgentTask.mk id ty p (clock w (ticks w))). split; [|done].
    rewrite Hcb, invoked_app. apply elem_of_app. right. simpl. left.
  - by apply Hold.
  - by apply Hold.
  - apply lookup_delete_Some in Hi as [_ Hi]. by apply Hold.
  - apply lookup_insert_Some in Hi as [[<- <-] | [_ Hi]].
    + exists t. split; [|done].
      rewrite Hcb, invoked_app. apply elem_of_app. right. simpl. left.
    + apply lookup_delete_Some in Hi as [_ Hi]. by apply Hold.
Qed.

(** X8.  When a callback is registered before any agent runs, it stays
    registered (there is no way to remove one), and every agent in the
    running set has been handed to a callback, with its id and type. *)
Theorem running_agents_were_announced
    (w0 : World) (cs : list Call) (id : string) (agent : RunningAgent.t) :
  runningAgents (this w0) = ∅ →
  is_Some (onSpawnCallback (this w0)) →
  runningAgents (this (exec cs w0)) !! id = Some agent →
  is_Some (onSpawnCallback (this (exec cs w0)))
  ∧ ∃ task, task ∈ invoked (trace (exec cs w0))
      ∧ AgentTask.id task = id
      ∧ AgentTask.type task = RunningAgent.type agent.
Proof.
  intros Hempty Hcb.
  assert (is_Some (onSpawnCallback (this (exec cs w0))) ∧ announced (exec cs w0))
    as [Hcb' Hann].
  { induction cs as [|c cs [IHcb IHann]] using rev_ind.
    - split; [done|]. intros i a Hi. simpl in Hi.
      by rewrite Hempty, lookup_empty in Hi.
    - rewrite exec_snoc.
      destruct (call_snd_step c (exec cs w0)) as [r Hs].
      by eapply step_announced. }
  intros Hid. split; [done|]. by apply Hann.
Qed.

(** * Timestamps *)

Lemma step_clock w c r w' : step w c r w' → clock w' = clock w.
Proof. by destruct 1. Qed.

Lemma step_ticks w c r w' : step w c r w' → (ticks w ≤ ticks w')%nat.
Proof. destruct 1; simpl; lia. Qed.

Lemma StronglySorted_snoc_lt (ns : list nat) (n : nat) :
  StronglySorted lt ns → Forall (λ k, k < n)%nat ns → StronglySorted lt (ns ++ [n]).
Proof.
  intros Hsorted Hbelow. apply StronglySorted_app_2; [| done |].
  - intros k1 k2 Hk1 ->%list_elem_of_singleton.
    by apply (proj1 (Forall_forall _ _) Hbelow).
  - repeat constructor.
Qed.

Lemma step_stamped w c r w' : step w c r w' → stamped w → stamped w'.
Proof.
  intros Hs [(ns & Hns & Hsorted & Hbelow) Hrun].
  pose proof (step_ticks _ _ _ _ Hs) as Hticks.
  assert (∀ id agent, runningAgents (this w) !! id = Some agent →
            ∃ n, (n < ticks w')%nat ∧ RunningAgent.startedAt agent = clock w n)
    as Hrun'.
  { intros id agent Hid. destruct (Hrun id agent Hid) as (n & ? & ?).
    exists n. split; [lia | done]. }
  assert (Forall (λ n, n < ticks w')%nat ns) as Hbelow'
    by (eapply Forall_impl; [done | simpl; intros; lia]).
  unfold stamped. split.
  - destruct Hs as [cb | id ty p Hfree | id ty p Hfull | id Hid
                   | id agent Hid _ | id agent t rest Hid Hq Hfree];
      simpl in *; try (by exists ns).
    + exists (ns ++ [ticks w]). rewrite !fmap_app, Hns. split; [done|].
      split; [by apply StronglySorted_snoc_lt|].
      apply Forall_app. split; [done|]. repeat constructor.
    + rewrite Hq in Hns. destruct ns as [|n ns]; [done|].
      injection Hns as _ Hns. exists ns. split; [done|].
      apply StronglySorted_inv in Hsorted as [? _].
      apply Forall_cons in Hbelow' as [_ ?]. done.
  - destruct Hs as [cb | id ty p Hfree | id ty p Hfull | id Hid
                   | id agent Hid _ | id agent t rest Hid Hq Hfree];
      simpl in *; try done.
    + intros i a [[<- <-] | [_ Hi]]%lookup_insert_Some; [|by eapply Hrun'].
      exists (S (ticks w)). split; [lia | done].
    + intros i a [_ Hi]%lookup_delete_Some. by eapply Hrun'.
    + intros i a [[<- <-] | [_ Hi]]%lookup_insert_Some.
      * exists (S (S (ticks w))). split; [lia | done].
      * apply lookup_delete_Some in Hi as [_ Hi]. by eapply Hrun'.
Qed.

(** With a clock that never runs backwards, the spans a call logs are not
    negative. *)
Lemma step_elapsed w c r w' :
  step w c r w' → monotone (clock w) → stamped w →
  ∃ evs, trace w' = trace w ++ evs
    ∧ ∀ e span, e ∈ evs → elapsed e = Some span → 0 ≤ span.
Proof.
  intros Hs Hmono [(ns & Hns & _ & Hbelow) Hrun].
  destruct Hs as [cb | id ty p Hfree | id ty p Hfull | id Hid
                 | id agent Hid _ | id agent t rest Hid Hq Hfree];
    unfold trace at 1; (eexists; split; [try reflexivity|]).
  - by rewrite app_nil_r.
  - by intros e span ?%elem_of_nil.
  - intros e span [-> | (? & _ & ->)%invocation_elem]%elem_of_cons; by intros [=].
  - intros e span [-> | []%elem_of_nil]%elem_of_cons. by intros [=].
  - intros e span [-> | []%elem_of_nil]%elem_of_cons. by intros [=].
  - intros e span [-> | []%elem_of_nil]%elem_of_cons [= <-].
    destruct (Hrun id agent Hid) as (n & Hn & ->).
    assert (clock w n ≤ clock w (ticks w)) by (apply Hmono; lia). lia.
  - rewrite Hq in Hns. destruct ns as [|k ns]; [done|].
    injection Hns as Hk _. apply Forall_cons in Hbelow as [Hkt _].
    destruct (Hrun id agent Hid) as (n & Hn & Hstart).
    assert (clock w n ≤ clock w (ticks w)) by (apply Hmono; lia).
    assert (clock w k ≤ clock w (S (ticks w))) by (apply Hmono; lia).
    intros e span [Hlogs | (? & _ & ->)%invocation_elem]%elem_of_app;
      [|by intros [=]].
    apply elem_of_cons in Hlogs as [-> | Hlogs]; [intros [= <-]; lia|].
    apply elem_of_cons in Hlogs as [-> | Hlogs]; [intros [= <-]; lia|].
    apply elem_of_cons in Hlogs as [-> | []%elem_of_nil]. by intros [=].
Qed.

(** X9.  On a host whose clock never runs backwards, the waiting list is
    ordered by [enqueuedAt], so the task promoted next is one that has
    waited longest by its own timestamp, and every duration and wait time
    written to the console is non-negative. *)
Theorem timestamps_follow_the_clock
    (m : option Z) (clk : nat → Z) (w0 : World) (cs : list Call) :
  boot m clk = Normal w0 →
  monotone clk →
  StronglySorted Z.le (AgentTask.enqueuedAt <$> queuedAgents (this (exec cs w0)))
  ∧ ∀ e span, e ∈ trace (exec cs w0) → elapsed e = Some span → 0 ≤ span.
Proof.
  intros (Hthis & Htr & Hticks & Hclk)%boot_this Hmono.
  assert (clock (exec cs w0) = clk
          ∧ stamped (exec cs w0)
          ∧ ∀ e span, e ∈ trace (exec cs w0) → elapsed e = Some span → 0 ≤ span)
    as (Hclk' & [(ns & Hns & Hsorted & _) _] & Hspans).
  { induction cs as [|c cs (IHclk & IHst & IHsp)] using rev_ind.
    - simpl. split; [done|]. split.
      + split; [exists []; rewrite Hthis; by repeat constructor|].
        intros id agent Hid. rewrite Hthis in Hid. simpl in Hid.
        by rewrite lookup_empty in Hid.
      + intros e span Hin. rewrite Htr in Hin. by apply elem_of_nil in Hin.
    - rewrite exec_snoc.
      destruct (call_snd_step c (exec cs w0)) as [r Hs].
      split; [by rewrite (step_clock _ _ _ _ Hs)|].
      split; [by eapply step_stamped|].
      destruct (step_elapsed _ _ _ _ Hs) as (evs & -> & Hnew);
        [by rewrite IHclk | done |].
      intros e span [Hold | Hin]%elem_of_app; [by apply IHsp | by apply Hnew]. }
  split; [|done].
  rewrite Hns, Hclk'. clear Hns.
  induction Hsorted as [|n ns Hsorted IH Hall]; simpl; constructor; [done|].
  apply Forall_fmap. eapply Forall_impl; [done|].
  simpl. intros k Hk. apply Hmono. lia.
Qed.

(** * Completing twice *)

(** After [markAgentComplete(id)] the id is not running, unless the task
    promoted in its place carries the same id. *)
Lemma step_complete_gone w id r w' :
  step w (Complete id) r w' →
  id ∉ waiting_ids w →
  runningAgents (this w') !! id = None.
Proof.
  unfold waiting_ids. intros Hs Hwait.
  inversion Hs as [| | | ? Hnone | ? ? Hsome Hidle | ? ? t rest Hsome Hq Hslot];
    subst; simpl.
  - done.
  - apply lookup_delete_eq.
  - rewrite lookup_insert_ne; [apply lookup_delete_eq|].
    intros Hsame. apply Hwait. rewrite Hq, <- Hsame. simpl. left.
Qed.

Lemma step_complete_unknown_inv w id r w' :
  step w (Complete id) r w' →
  runningAgents (this w) !! id = None →
  this w' = this w ∧ trace w' = trace w ++ [Warn (MsgNotRunning id)].
Proof.
  intros Hs Hnone. inversion Hs; subst; simpl; [done | congruence | congruence].
Qed.

(** X10.  Reporting the same completion twice frees one slot, not two:
    for an id that is not in the waiting list, a second
    [markAgentComplete(id)] right after the first leaves the object as the
    first left it and invokes nothing. *)
Theorem second_completion_is_noop (w : World) (id : string) :
  id ∉ waiting_ids w →
  this (exec [Complete id; Complete id] w) = this (exec [Complete id] w)
  ∧ invoked (trace (exec [Complete id; Complete id] w)) =
      invoked (trace (exec [Complete id] w)).
Proof.
  intros Hwait.
  change (exec [Complete id; Complete id] w)
    with (snd (call (Complete id) (exec [Complete id] w))).
  change (exec [Complete id] w) with (snd (call (Complete id) w)).
  destruct (call_snd_step (Complete id) w) as [r Hs].
  pose proof (step_complete_gone _ _ _ _ Hs Hwait) as Hgone.
  destruct (call_snd_step (Complete id) (snd (call (Complete id) w))) as [r' Hs'].
  destruct (step_complete_unknown_inv _ _ _ _ Hs' Hgone) as [-> ->].
  split; [done|]. rewrite invoked_app. apply app_nil_r.
Qed.

(** * The scenarios of the test file, for any capacity *)

(** X11.  On a new queue of capacity M >= 0, after [enqueueAgent] for n
    requests with distinct ids the status shows min(M, n) running and
    n - M waiting (0 if n <= M): up to M agents are all started, the
    excess waits. *)
Theorem status_after_enqueues
    (M : Z) (clk : nat → Z) (w0 : World)
    (requests : list (string * string * string)) :
  0 ≤ M →
  boot (Some M) clk = Normal w0 →
  NoDup (requests.*1.*1) →
  getStatus (this (exec (enqueue_all requests) w0)) =
    {| st_running := Z.to_nat M `min` length requests;
       st_queued := length requests - Z.to_nat M;
       st_max := M |}.
Proof.
  intros HM Hboot Hnd.
  assert (reachable (Some M) (exec (enqueue_all requests) w0)) as Hreach
    by (apply reachable_exec; by apply (reachable_boot _ clk)).
  apply reachable_maxConcurrent in Hreach. simpl in Hreach.
  apply boot_this in Hboot as (Hthis & _).
  destruct (enqueue_all_fresh requests w0 (Z.to_nat M)) as (Hsize & Hqueue & _).
  { rewrite Hthis. simpl. rewrite map_size_empty. lia. }
  { done. }
  { intros i _. rewrite Hthis. apply lookup_empty. }
  rewrite Hthis in Hsize, Hqueue. simpl in Hsize, Hqueue.
  rewrite map_size_empty in Hsize.
  unfold getStatus.
  by rewrite Hreach, Hsize, <- (length_fmap request), Hqueue, length_drop.
Qed.

(** X12.  On a new queue of capacity M > 0, after [enqueueAgent] for
    M + 1 + k requests with distinct ids, [markAgentComplete] on one of
    the first M starts the request number M + 1: it is running, the
    completed id is not, M agents run and the last k requests wait, in
    order. *)
Theorem completion_starts_first_waiting
    (M : Z) (k : nat) (clk : nat → Z) (w0 : World)
    (requests : list (string * string * string)) (id : string)
    (next : string * string * string) :
  0 < M →
  boot (Some M) clk = Normal w0 →
  NoDup (requests.*1.*1) →
  length requests = (Z.to_nat M + S k)%nat →
  id ∈ (take (Z.to_nat M) requests).*1.*1 →
  requests !! Z.to_nat M = Some next →
  isAgentRunning next.1.1
    (this (exec (enqueue_all requests ++ [Complete id]) w0)) = true
  ∧ isAgentRunning id
      (this (exec (enqueue_all requests ++ [Complete id]) w0)) = false
  ∧ getRunningCount
      (this (exec (enqueue_all requests ++ [Complete id]) w0)) = Z.to_nat M
  ∧ getQueuedCount
      (this (exec (enqueue_all requests ++ [Complete id]) w0)) = k
  ∧ request <$> queuedAgents
      (this (exec (enqueue_all requests ++ [Complete id]) w0)) =
      drop (S (Z.to_nat M)) requests.
Proof.
  intros HM Hboot Hnd Hlen Hid Hnext.
  assert (reachable (Some M) (exec (enqueue_all requests) w0)) as Hreach
    by (apply reachable_exec; by apply (reachable_boot _ clk)).
  apply boot_this in Hboot as (Hthis & _).
  destruct (enqueue_all_fresh requests w0 (Z.to_nat M))
    as (Hsize & Hqueue & Hkeys).
  { rewrite Hthis. simpl. rewrite map_size_empty. lia. }
  { done. }
  { intros i _. rewrite Hthis. apply lookup_empty. }
  rewrite Hthis in Hsize, Hqueue, Hkeys. simpl in Hsize, Hqueue, Hkeys.
  rewrite map_size_empty in Hsize.
  rewrite exec_snoc.
  set (w := exec (enqueue_all requests) w0) in *.
  (* the ids that run are those of the first M requests *)
  assert (∀ i, is_Some (runningAgents (this w) !! i) ↔
               i ∈ (take (Z.to_nat M) requests).*1.*1) as Hrunning.
  { intros i. rewrite Hkeys, lookup_empty. split; [|by right].
    by intros [[? [=]] | ?]. }
  (* the waiting list starts with the request number M + 1 *)
  rewrite (drop_S _ _ _ Hnext) in Hqueue.
  destruct (queuedAgents (this w)) as [|t rest] eqn:Hq; [done|].
  rewrite fmap_cons in Hqueue.
  assert (request t = next
          ∧ request <$> rest = drop (S (Z.to_nat M)) requests) as [Ht Hrest]
    by (split; congruence).
  assert (AgentTask.id t = next.1.1) as Htid by (by rewrite <- Ht).
  (* which does not run yet *)
  assert (next.1.1 ∉ (take (Z.to_nat M) requests).*1.*1) as Hfresh.
  { rewrite <- (take_drop (Z.to_nat M) requests), (drop_S _ _ _ Hnext) in Hnd.
    rewrite !fmap_app in Hnd. apply NoDup_app in Hnd as (_ & Hdisj & _).
    intros Hin. apply (Hdisj _ Hin). simpl. left. }
  apply Hrunning in Hid as [agent Hid].
  destruct (call_snd_step (Complete id) w) as [r Hs].
  destruct (step_complete_running _ _ _ _ _ Hs Hid (reachable_capped _ _ Hreach))
    as (_ & Hq' & Hr' & _).
  rewrite Hq in Hq', Hr'.
  unfold isAgentRunning, getRunningCount, getQueuedCount.
  rewrite Hq', Hr', Htid. change (drop 1 (t :: rest)) with rest.
  assert (next.1.1 ≠ id) as Hne.
  { intros Heq. apply Hfresh. rewrite Heq. apply Hrunning. by eexists. }
  split; [apply has_is_Some; rewrite lookup_insert_eq; by eexists|].
  split; [apply has_false; by rewrite lookup_insert_ne, lookup_delete_eq|].
  split.
  { rewrite map_size_insert_None.
    - rewrite (size_delete_running _ _ _ Hid). lia.
    - apply lookup_delete_None. right. apply eq_None_not_Some.
      by intros ?%Hrunning. }
  split; [|done].
  rewrite <- (length_fmap request), Hrest, length_drop. lia.
Qed.

(** * The further properties on the test scenario *)

Lemma reachable_distinct_abc :
  reachable_distinct (Some 2) (exec (enqueue_all abc) (fresh (Some 2))).
Proof.
  change (exec (enqueue_all abc) (fresh (Some 2))) with
    (snd (call (Enqueue "agent-3" "debugger" "test3")
       (snd (call (Enqueue "agent-2" "coder" "test2")
          (snd (call (Enqueue "agent-1" "researcher" "test1")
             (fresh (Some 2)))))))).
  repeat (apply distinct_call;
          [| intros id ty p [= <- _ _]; unfold known, waiting_ids;
             apply (bool_decide_unpack _); vm_compute; exact I]).
  apply (distinct_boot _ clock0), boot_fresh.
Qed.

Lemma clock0_monotone : monotone clock0.
Proof. intros i j Hij. unfold clock0. lia. Qed.

Lemma no_callback_no_invocation_witness :
  invoked (trace (exec (enqueue_all abc ++ [Complete "agent-1"]) (fresh (Some 2)))) = []
  ∧ invoked (trace (exec ((enqueue_all abc ++ [Complete "agent-1"])
                            ++ [SetSpawnCallback {| cb_ref := 7 |}])
                      (fresh (Some 2)))) = [].
Proof.
  destruct (no_callback_no_invocation (Some 2) clock0 (fresh (Some 2))
              (enqueue_all abc ++ [Complete "agent-1"]) {| cb_ref := 7 |})
    as (Hnone & Hlater & _).
  - reflexivity.
  - intros cb' Hin.
    change (enqueue_all abc ++ [Complete "agent-1"]) with
      [Enqueue "agent-1" "researcher" "test1"; Enqueue "agent-2" "coder" "test2";
       Enqueue "agent-3" "debugger" "test3"; Complete "agent-1"] in Hin.
    repeat (apply elem_of_cons in Hin as [Hin | Hin]; [discriminate Hin|]).
    by apply elem_of_nil in Hin.
  - split; [exact Hnone | exact Hlater].
Defined.

Lemma no_idle_slot_while_waiting_witness :
  Z.of_nat (st_running (getStatus (this (exec (enqueue_all abc) (fresh (Some 2)))))) =
  Z.max 0 (st_max (getStatus (this (exec (enqueue_all abc) (fresh (Some 2)))))).
Proof.
  apply (no_idle_slot_while_waiting (Some 2)).
  - apply reachable_distinct_abc.
  - vm_compute. discriminate.
Defined.

Lemma completion_backfills_witness :
  getRunningCount
    (this (snd (markAgentComplete "agent-1" (exec (enqueue_all abc) (fresh (Some 2)))))) =
    getRunningCount (this (exec (enqueue_all abc) (fresh (Some 2))))
  ∧ getQueuedCount
      (this (snd (markAgentComplete "agent-1" (exec (enqueue_all abc) (fresh (Some 2)))))) =
    0%nat.
Proof.
  apply (completion_backfills (Some 2) (exec (enqueue_all abc) (fresh (Some 2)))
           "agent-1").
  - apply reachable_distinct_abc.
  - reflexivity.
Defined.

Lemma completions_drain_in_order_witness :
  request <$> queuedAgents
    (this (exec (Complete <$> ["agent-1"; "agent-3"])
             (exec (SetSpawnCallback {| cb_ref := 7 |}
                      :: enqueue_all (abc ++ [("agent-4", "coder", "test4");
                                              ("agent-5", "coder", "test5")]))
                (fresh (Some 2))))) =
  [("agent-5", "coder", "test5")].
Proof.
  destruct (completions_drain_in_order (Some 2)
              (exec (SetSpawnCallback {| cb_ref := 7 |}
                       :: enqueue_all (abc ++ [("agent-4", "coder", "test4");
                                               ("agent-5", "coder", "test5")]))
                 (fresh (Some 2)))
              ["agent-1"; "agent-3"]) as [-> _].
  - apply reachable_fresh_exec.
  - split; [reflexivity|]. split; [reflexivity | exact I].
  - reflexivity.
Defined.

Lemma enqueued_ids_are_kept_witness :
  known "agent-3" (exec (enqueue_all abc ++ [Complete "agent-1"]) (fresh (Some 2)))
  ∨ Complete "agent-3" ∈ enqueue_all abc ++ [Complete "agent-1"].
Proof.
  apply (enqueued_ids_are_kept (Some 2) clock0 (fresh (Some 2))
           (enqueue_all abc ++ [Complete "agent-1"]) "agent-3" "debugger" "test3").
  - reflexivity.
  - change (enqueue_all abc ++ [Complete "agent-1"]) with
      [Enqueue "agent-1" "researcher" "test1"; Enqueue "agent-2" "coder" "test2";
       Enqueue "agent-3" "debugger" "test3"; Complete "agent-1"].
    apply list_elem_of_further, list_elem_of_further, list_elem_of_here.
Defined.

Lemma queue_contents_come_from_enqueue_witness :
  RunningAgent.id (RunningAgent.mk "agent-1" "researcher" 1001) = "agent-1"
  ∧ ∃ prompt, Enqueue "agent-1" "researcher" prompt ∈ enqueue_all abc.
Proof.
  destruct (queue_contents_come_from_enqueue (Some 1) clock0 (fresh (Some 1))
              (enqueue_all abc)) as [_ Hrun].
  - reflexivity.
  - apply (Hrun "agent-1" (RunningAgent.mk "agent-1" "researcher" 1001)).
    reflexivity.
Defined.

Lemma running_agents_were_announced_witness :
  ∃ task,
    task ∈ invoked (trace (exec (enqueue_all abc)
                             (snd (setSpawnCallback {| cb_ref := 7 |} (fresh (Some 2))))))
    ∧ AgentTask.id task = "agent-2"
    ∧ AgentTask.type task = "coder".
Proof.
  apply (running_agents_were_announced
           (snd (setSpawnCallback {| cb_ref := 7 |} (fresh (Some 2))))
           (enqueue_all abc) "agent-2" (RunningAgent.mk "agent-2" "coder" 1003)).
  - reflexivity.
  - by eexists.
  - reflexivity.
Defined.

Lemma timestamps_follow_the_clock_witness :
  StronglySorted Z.le
    (AgentTask.enqueuedAt <$>
       queuedAgents (this (exec (enqueue_all abc) (fresh (Some 1))))).
Proof.
  apply (timestamps_follow_the_clock (Some 1) clock0 (fresh (Some 1)) (enqueue_all abc)).
  - reflexivity.
  - apply clock0_monotone.
Defined.

Lemma second_completion_is_noop_witness :
  this (exec [Complete "agent-1"; Complete "agent-1"]
          (exec (enqueue_all abc) (fresh (Some 2)))) =
  this (exec [Complete "agent-1"] (exec (enqueue_all abc) (fresh (Some 2)))).
Proof.
  apply (second_completion_is_noop (exec (enqueue_all abc) (fresh (Some 2))) "agent-1").
  unfold waiting_ids. apply (bool_decide_unpack _). vm_compute. exact I.
Defined.

Lemma status_after_enqueues_witness :
  getStatus (this (exec (enqueue_all abc) (fresh (Some 5)))) =
    {| st_running := 3; st_queued := 0; st_max := 5 |}.
Proof.
  apply (status_after_enqueues 5 clock0 (fresh (Some 5)) abc).
  - lia.
  - reflexivity.
  - apply (bool_decide_unpack _). vm_compute. exact I.
Defined.

Lemma completion_starts_first_waiting_witness :
  isAgentRunning "agent-3"
    (this (exec (enqueue_all abc ++ [Complete "agent-1"]) (fresh (Some 2)))) = true
  ∧ isAgentRunning "agent-1"
      (this (exec (enqueue_all abc ++ [Complete "agent-1"]) (fresh (Some 2)))) = false
  ∧ getRunningCount
      (this (exec (enqueue_all abc ++ [Complete "agent-1"]) (fresh (Some 2)))) = 2%nat
  ∧ getQueuedCount
      (this (exec (enqueue_all abc ++ [Complete "agent-1"]) (fresh (Some 2)))) = 0%nat.
Proof.
  destruct (completion_starts_first_waiting 2 0 clock0 (fresh (Some 2)) abc
              "agent-1" ("agent-3", "debugger", "test3"))
    as (Hnext & Hgone & Hrun & Hwait & _).
  - lia.
  - reflexivity.
  - apply (bool_decide_unpack _). vm_compute. exact I.
  - reflexivity.
  - apply (bool_decide_unpack _). vm_compute. exact I.
  - reflexivity.
  - split; [exact Hnext|]. split; [exact Hgone|]. split; [exact Hrun | exact Hwait].
Defined.
